(** * PytorchStarter: a shallow embedding of the tutorial notebooks

    The development follows two notebooks of the repository:

    - [Text/12.GeneratingNamesRNN/char_rnn_generation_tutorial.ipynb]
      (module [Names]): data loading, one-hot encodings, the hand-written
      RNN cell, [train], the training loop and [sample];
    - [Text/14.NLP/sequence_models_tutorial.ipynb] (module [Tagger]):
      the construction of [word_to_ix] and the epoch loop of the
      part-of-speech tagger.

    Conventions.  A Python [str] is a list of Unicode code points ([N]).
    A Python exception is a value of [exn] and a computation that may raise
    is in [res].  Tensor entries are exact rationals ([Qc]) standing for
    the floats of the tensor library; the transcendental part of
    [LogSoftmax] and the differentiation done by [loss.backward()] belong
    to the tensor library and are fields of the class [Torch].  The random
    sources are tapes: every call of [random.randint] or of the dropout
    layer reads the next cell. *)

From Stdlib Require Import ZArith NArith List Bool Lia String Ascii QArith Qcanon.
From stdpp Require Import base tactics option list numbers gmap strings.

Set Default Proof Using "Type".
Open Scope Z_scope.

(* ===================================================================== *)
(** * Python values, exceptions and builtins                              *)
(* ===================================================================== *)

Module Py.

(** A [str]: a sequence of code points. *)
Abbreviation str := (list N).

(** Exceptions the notebooks can end with.  [RuntimeError] is the one a
    [raise] statement of the repository constructs; the others are raised
    by the interpreter or by a library ([TorchError] for a shape or index
    error inside the tensor library). *)
Inductive exn : Type :=
  | RuntimeError (msg : string)
  | ValueError
  | IndexError
  | KeyError
  | AttributeError
  | NameError
  | OSError
  | TorchError.

Inductive res (A : Type) : Type :=
  | Ret (a : A)
  | Raise (e : exn).
Arguments Ret {A} a.
Arguments Raise {A} e.

#[global] Instance res_ret : MRet res := fun A a => Ret a.
#[global] Instance res_bind : MBind res := fun A B f m =>
  match m with
  | Ret a => f a
  | Raise e => Raise e
  end.
#[global] Instance res_fmap : FMap res := fun A B f m =>
  match m with
  | Ret a => Ret (f a)
  | Raise e => Raise e
  end.

(** [for x in xs: body] over an accumulator, stopping at the first
    exception. *)
Fixpoint for_each {A S : Type} (body : S -> A -> res S) (xs : list A) (s : S)
  : res S :=
  match xs with
  | [] => Ret s
  | x :: xs' => s' ← body s x; for_each body xs' s'
  end.

(** A literal: the code points of an ASCII string. *)
Fixpoint lit (s : string) : str :=
  match s with
  | EmptyString => []
  | String a s' => N_of_ascii a :: lit s'
  end.

(** [range(a, b)] over naturals. *)
Definition range (a b : nat) : list nat := seq a (b - a).

(** [s.find(c)] for a one-character [c]: the least index of [c] in [s],
    or [-1]. *)
Fixpoint find (s : str) (c : N) : Z :=
  match s with
  | [] => -1
  | x :: s' =>
      if N.eqb x c then 0
      else let r := find s' c in if r <? 0 then -1 else r + 1
  end.

(** [s.rfind(c)] for a one-character [c]: the greatest index, or [-1]. *)
Fixpoint rfind_from (i : Z) (s : str) (c : N) (acc : Z) : Z :=
  match s with
  | [] => acc
  | x :: s' => rfind_from (i + 1) s' c (if N.eqb x c then i else acc)
  end.
Definition rfind (s : str) (c : N) : Z := rfind_from 0 s c (-1).

(** [c in s] for a one-character [c]. *)
Definition contains (s : str) (c : N) : bool := existsb (N.eqb c) s.

(** [xs.index(x)]: the least index of [x]; [ValueError] when absent. *)
Fixpoint index {A} `{EqDecision A} (xs : list A) (x : A) : res nat :=
  match xs with
  | [] => Raise ValueError
  | y :: xs' => if decide (y = x) then Ret 0%nat else S <$> index xs' x
  end.

(** The position a subscript [i] denotes in a sequence of length [len]:
    negative subscripts count from the end; [IndexError] out of range. *)
Definition subscript (len : nat) (i : Z) : res nat :=
  if (0 <=? i) && (i <? Z.of_nat len) then Ret (Z.to_nat i)
  else if (- Z.of_nat len <=? i) && (i <? 0) then Ret (Z.to_nat (Z.of_nat len + i))
  else Raise IndexError.

(** [xs[i]]. *)
Definition getitem {A} (xs : list A) (i : Z) : res A :=
  k ← subscript (length xs) i;
  match xs !! k with
  | Some x => Ret x
  | None => Raise IndexError
  end.

(** [xs[i] = x] on a mutable sequence, as the new sequence. *)
Definition setitem {A} (xs : list A) (i : Z) (x : A) : res (list A) :=
  k ← subscript (length xs) i; Ret (<[k := x]> xs).

(** [str.isspace] on one code point: the code points [str.strip()]
    removes. *)
Definition isspace (c : N) : bool :=
  (((9 <=? c) && (c <=? 13)) || ((28 <=? c) && (c <=? 32))
   || (c =? 133) || (c =? 160) || (c =? 5760)
   || ((8192 <=? c) && (c <=? 8202))
   || (c =? 8232) || (c =? 8233) || (c =? 8239) || (c =? 8287)
   || (c =? 12288))%N.

(** [s.lstrip()], [s.rstrip()], [s.strip()]. *)
Fixpoint lstrip (s : str) : str :=
  match s with
  | [] => []
  | c :: s' => if isspace c then lstrip s' else s
  end.

Fixpoint rstrip (s : str) : str :=
  match s with
  | [] => []
  | c :: s' =>
      match rstrip s' with
      | [] => if isspace c then [] else [c]
      | r => c :: r
      end
  end.

Definition strip (s : str) : str := rstrip (lstrip s).

(** [s.split(sep)] for a one-character separator: never empty. *)
Fixpoint split (sep : N) (s : str) : list str :=
  match s with
  | [] => [[]]
  | c :: s' =>
      if N.eqb c sep then [] :: split sep s'
      else match split sep s' with
           | [] => [[c]]
           | h :: t => (c :: h) :: t
           end
  end.

(** [s.split()]: the maximal runs without whitespace. *)
Fixpoint split_ws_from (cur : str) (s : str) : list str :=
  match s with
  | [] => match cur with [] => [] | _ => [cur] end
  | c :: s' =>
      if isspace c
      then match cur with
           | [] => split_ws_from [] s'
           | _ => cur :: split_ws_from [] s'
           end
      else split_ws_from (cur ++ [c]) s'
  end.
Definition split_ws (s : str) : list str := split_ws_from [] s.

(** [d[k]] on a dict: [KeyError] when absent. *)
Definition dict_get {K V} `{Countable K} (d : gmap K V) (k : K) : res V :=
  match d !! k with
  | Some v => Ret v
  | None => Raise KeyError
  end.

(** [sep.join(parts)]. *)
Fixpoint join (sep : N) (parts : list str) : str :=
  match parts with
  | [] => []
  | [p] => p
  | p :: ps => p ++ sep :: join sep ps
  end.

(** [s[i:]] and [s[:i]] for a subscript [0 <= i]. *)
Definition slice_from (s : str) (i : Z) : str := drop (Z.to_nat i) s.
Definition slice_to (s : str) (i : Z) : str := take (Z.to_nat i) s.

Definition slash : N := 47%N.
Definition dot : N := 46%N.
Definition newline : N := 10%N.

(** [os.path.basename] of [posixpath]: what follows the last slash. *)
Definition basename (p : str) : str := slice_from p (rfind p slash + 1).

(** [os.path.splitext] of [posixpath] ([genericpath._splitext]): the
    extension starts at the last dot of the last path component, unless
    only dots precede it there. *)
Fixpoint splitext_scan (p : str) (dotIndex : Z) (idxs : list Z)
  : option (str * str) :=
  match idxs with
  | [] => None
  | filenameIndex :: rest =>
      match p !! Z.to_nat filenameIndex with
      | Some c =>
          if negb (N.eqb c dot)
          then Some (slice_to p dotIndex, slice_from p dotIndex)
          else splitext_scan p dotIndex rest
      | None => Some (slice_to p dotIndex, slice_from p dotIndex)
      end
  end.

Definition splitext (p : str) : str * str :=
  let sepIndex := rfind p slash in
  let dotIndex := rfind p dot in
  if sepIndex <? dotIndex then
    let filenameIndex := sepIndex + 1 in
    match splitext_scan p dotIndex
            (map (fun k => filenameIndex + Z.of_nat k)
                 (seq 0 (Z.to_nat (dotIndex - filenameIndex)))) with
    | Some r => r
    | None => (p, [])
    end
  else (p, []).

End Py.
Import Py.

(** The examples processed, in order, are full passes over the data set:
    they split into epochs, each of which processes every example of the
    data set exactly once. *)
Definition full_passes {A} (dataset processed : list A) : Prop :=
  ∃ epochs : list (list A),
    processed = concat epochs ∧ Forall (fun e => e ≡ₚ dataset) epochs.

(* ===================================================================== *)
(** * What the notebooks take from the platform and from the libraries    *)
(* ===================================================================== *)

(** The file system and the Unicode database, as the data-loading cell
    uses them. *)
Class Platform : Type := {
  (** [glob.glob(path)] *)
  glob : str -> list str;
  (** [open(filename, encoding='utf-8').read()]; [None] when the file
      cannot be opened or decoded *)
  read_text : str -> option str;
  (** [unicodedata.normalize('NFD', s)] *)
  normalize_NFD : str -> str;
  (** [unicodedata.category(c) == 'Mn'] *)
  category_Mn : N -> bool;
}.

(** Tensors of rank one, two and three. *)
Abbreviation vec := (list Qc).
Abbreviation matrix := (list (list Qc)).
Abbreviation tensor3 := (list (list (list Qc))).

Module Tensor.

(** [torch.zeros(n)], [torch.zeros(r, c)], [torch.zeros(a, r, c)]. *)
Definition zeros1 (n : nat) : vec := replicate n 0%Qc.
Definition zeros2 (r c : nat) : matrix := replicate r (zeros1 c).
Definition zeros3 (a r c : nat) : tensor3 := replicate a (zeros2 r c).

(** [t[i][j] = x] and [t[i][j][k] = x]: the subscripts select a view and
    the assignment writes through it. *)
Definition setitem2 (t : matrix) (i j : Z) (x : Qc) : res matrix :=
  row ← getitem t i; row' ← setitem row j x; setitem t i row'.

Definition setitem3 (t : tensor3) (i j k : Z) (x : Qc) : res tensor3 :=
  m ← getitem t i; m' ← setitem2 m j k x; setitem t i m'.

(** The shape of a rank-two tensor: [r] rows of [c] entries. *)
Definition has_shape2 (r c : nat) (t : matrix) : Prop :=
  length t = r ∧ Forall (fun row => length row = c) t.

Definition has_shape3 (a r c : nat) (t : tensor3) : Prop :=
  length t = a ∧ Forall (has_shape2 r c) t.

(** A vector is one-hot at [k]: entry [k] is 1 and every other entry 0. *)
Definition one_hot_at (k : nat) (v : vec) : Prop :=
  (k < length v)%nat ∧
  ∀ j, (j < length v)%nat → v !! j = Some (if decide (j = k) then 1%Qc else 0%Qc).

(** The vector of length [n] with a 1 at [k] and 0 elsewhere. *)
Definition one_hot (n k : nat) : vec := <[k := 1%Qc]> (zeros1 n).

End Tensor.
Import Tensor.

(* ===================================================================== *)
(** * The tensor library, as far as the notebooks use it                  *)
(* ===================================================================== *)

Module Torch_nn.

Definition Qc_of_nat (n : nat) : Qc := Q2Qc (inject_Z (Z.of_nat n)).

(** [nn.Linear(in_features, out_features)]. *)
Record Linear : Type := mkLinear {
  in_features : nat;
  out_features : nat;
  weight : matrix;
  bias : vec;
}.

Definition inner (w x : vec) : Qc := foldr Qcplus 0%Qc (zip_with Qcmult w x).

(** [linear(x)]: every row [x_r] of the batch becomes [W x_r + b]; a row
    that is not [in_features] wide is a size mismatch. *)
Definition linear_row (l : Linear) (x : vec) : res vec :=
  if (length x =? in_features l)%nat
  then Ret (zip_with (fun w b => (inner w x + b)%Qc) (weight l) (bias l))
  else Raise TorchError.

Definition linear (l : Linear) (x : matrix) : res matrix :=
  mapM (linear_row l) x.

(** [torch.cat(ts, 1)]: the tensors have the same number of rows, and row
    [r] of the result is the concatenation of their rows [r]. *)
Fixpoint cat1 (ts : list matrix) : res matrix :=
  match ts with
  | [] => Raise TorchError
  | [t] => Ret t
  | t :: ts' =>
      r ← cat1 ts';
      if (length t =? length r)%nat then Ret (zip_with app t r)
      else Raise TorchError
  end.

(** [nn.Dropout(p)] on a module in training mode: an entry is kept with
    probability [1 - p] and then scaled by [1 / (1 - p)], and zeroed
    otherwise.  [keep] is the draw for this call, by flat position. *)
Definition dropout_row (p : Qc) (keep : nat -> bool) (row : vec) : vec :=
  imap (fun j v => if keep j then (v * (1 / (1 - p)))%Qc else 0%Qc) row.

Definition dropout (p : Qc) (keep : nat -> bool) (x : matrix) : matrix :=
  imap (fun r row => dropout_row p (fun j => keep (r * length row + j)%nat) row) x.

(** [output.topk(1)] on a row: the largest entry and its position (the
    first one among equals); a row has to have an entry. *)
Fixpoint argmax_from (i best_i : nat) (best : Qc) (xs : vec) : Qc * nat :=
  match xs with
  | [] => (best, best_i)
  | x :: xs' =>
      match (best ?= x)%Qc with
      | Lt => argmax_from (S i) i x xs'
      | _ => argmax_from (S i) best_i best xs'
      end
  end.

Definition topk1_row (row : vec) : res (vec * list nat) :=
  match row with
  | [] => Raise TorchError
  | x :: xs => let '(v, i) := argmax_from 1 0 x xs in Ret ([v], [i])
  end.

Definition topk1 (output : matrix) : res (matrix * list (list nat)) :=
  rows ← mapM topk1_row output;
  Ret (map fst rows, map snd rows).

(** [nn.NLLLoss()] (mean reduction) on a batch of log-probabilities and
    one class per row. *)
Definition nll_row (row : vec) (t : Z) : res Qc :=
  if (0 <=? t) && (t <? Z.of_nat (length row)) then
    match row !! Z.to_nat t with
    | Some v => Ret (- v)%Qc
    | None => Raise TorchError
    end
  else Raise TorchError.

Fixpoint nll_rows (output : matrix) (target : list Z) : res Qc :=
  match output, target with
  | [], [] => Ret 0%Qc
  | row :: output', t :: target' =>
      l ← nll_row row t; rest ← nll_rows output' target'; Ret (l + rest)%Qc
  | _, _ => Raise TorchError
  end.

Definition NLLLoss (output : matrix) (target : list Z) : res Qc :=
  total ← nll_rows output target;
  Ret (total / Qc_of_nat (length output))%Qc.

(** A parameter tensor: a weight (rank two) or a bias (rank one). *)
Inductive tensor : Type :=
  | Vec (v : vec)
  | Mat (m : matrix).

(** [p.add_(a, g)]: [p := p + a * g], entry by entry; the two tensors have
    the same shape. *)
Fixpoint axpy_vec (a : Qc) (p g : vec) : res vec :=
  match p, g with
  | [], [] => Ret []
  | x :: p', y :: g' => r ← axpy_vec a p' g'; Ret ((x + a * y)%Qc :: r)
  | _, _ => Raise TorchError
  end.

Fixpoint axpy_mat (a : Qc) (p g : matrix) : res matrix :=
  match p, g with
  | [], [] => Ret []
  | x :: p', y :: g' =>
      r0 ← axpy_vec a x y; r ← axpy_mat a p' g'; Ret (r0 :: r)
  | _, _ => Raise TorchError
  end.

Definition add_ (a : Qc) (p g : tensor) : res tensor :=
  match p, g with
  | Vec x, Vec y => Vec <$> axpy_vec a x y
  | Mat x, Mat y => Mat <$> axpy_mat a x y
  | _, _ => Raise TorchError
  end.

Definition zeros_like (t : tensor) : tensor :=
  match t with
  | Vec v => Vec (map (fun _ => 0%Qc) v)
  | Mat m => Mat (map (map (fun _ => 0%Qc)) m)
  end.

(** Entry by entry. *)
Definition tensor_zip (f : Qc -> Qc -> Qc) (t u : tensor) : tensor :=
  match t, u with
  | Vec v, Vec w => Vec (zip_with f v w)
  | Mat m, Mat n => Mat (zip_with (zip_with f) m n)
  | _, _ => t
  end.

(** The sum of a list of losses. *)
Definition Qc_sum (ls : list Qc) : Qc := foldr Qcplus 0%Qc ls.

(** Two tensors of one shape. *)
Definition same_shape (t u : tensor) : Prop :=
  match t, u with
  | Vec v, Vec w => length v = length w
  | Mat m, Mat n => Forall2 (fun r r' => length r = length r') m n
  | _, _ => False
  end.

End Torch_nn.
Import Torch_nn.

(* ===================================================================== *)
(** * Generating names with a character-level RNN                         *)
(* ===================================================================== *)

Module Names.

(** [string.ascii_letters + " .,;'-"] *)
Definition ascii_letters : str :=
  lit "abcdefghijklmnopqrstuvwxyzABCDEFGHIJKLMNOPQRSTUVWXYZ".
Definition all_letters : str := ascii_letters ++ lit " .,;'-".
(** Plus EOS marker. *)
Definition n_letters : nat := length all_letters + 1.

Definition data_not_found : string :=
  "Data not found. Make sure that you downloaded data from https://download.pytorch.org/tutorial/data.zip and extract it to the current directory.".

(** The globals the data-loading cell leaves behind. *)
Record globals : Type := Globals {
  category_lines : gmap str (list str);
  all_categories : list str;
}.

(** [n_categories = len(all_categories)] *)
Definition n_categories (g : globals) : nat := length (all_categories g).

Section loading.
Context {P : Platform}.

Definition findFiles (path : str) : list str := glob path.

(** Turn a Unicode string to plain ASCII. *)
Definition unicodeToAscii (s : str) : str :=
  List.filter (fun c => negb (category_Mn c) && contains all_letters c)
              (normalize_NFD s).

Definition readLines (filename : str) : res (list str) :=
  content ← match read_text filename with
            | Some content => Ret content
            | None => Raise OSError
            end;
  let lines := split newline (strip content) in
  Ret (map unicodeToAscii lines).

(** One iteration of [for filename in findFiles('data/names/*.txt')], on
    the pair [(category_lines, all_categories)]. *)
Definition load_step (st : gmap str (list str) * list str) (filename : str)
  : res (gmap str (list str) * list str) :=
  let category := fst (splitext (basename filename)) in
  let all_categories := snd st ++ [category] in
  lines ← readLines filename;
  Ret (<[category := lines]> (fst st), all_categories).

(** The data-loading cell. *)
Definition load : res globals :=
  st ← for_each load_step (findFiles (lit "data/names/*.txt")) (∅, []);
  let g := Globals (fst st) (snd st) in
  if (n_categories g =? 0)%nat then Raise (RuntimeError data_not_found)
  else Ret g.

End loading.

(** The category of a data file: its base name without the extension. *)
Definition category_of (filename : str) : str :=
  fst (splitext (basename filename)).

(** A path [data/names/<name>.txt] that the pattern [data/names/*.txt]
    matches: [name] is not empty, has no slash and does not start with a
    dot. *)
Definition data_file (filename name : str) : Prop :=
  filename = (lit "data/names/" ++ name ++ lit ".txt") ∧
  name ≠ [] ∧ (slash ∉ name) ∧ head name ≠ Some dot.

(** [body] is [content] without its surrounding whitespace. *)
Definition is_stripped (content body : str) : Prop :=
  ∃ pre post,
    content = (pre ++ body ++ post) ∧
    Forall (fun c => isspace c = true) pre ∧
    Forall (fun c => isspace c = true) post ∧
    (∀ c, head body = Some c → isspace c = false) ∧
    (∀ c, last body = Some c → isspace c = false).

(** [lines] are the pieces of [body] between its newlines. *)
Definition is_split (body : str) (lines : list str) : Prop :=
  lines ≠ [] ∧ join newline lines = body ∧ Forall (fun l => newline ∉ l) lines.

(** What the notebook relies on from the Unicode database: a string over
    [all_letters] is its own canonical decomposition, and no character of
    [all_letters] is a nonspacing mark. *)
Definition Unicode_ok (P : Platform) : Prop :=
  (∀ s, Forall (fun c => contains all_letters c = true) s → normalize_NFD s = s) ∧
  (∀ c, contains all_letters c = true → category_Mn c = false).

Section encodings.
Variable g : globals.

(** One-hot vector for category. *)
Definition categoryTensor (category : str) : res matrix :=
  li ← index (all_categories g) category;
  let tensor := zeros2 1 (n_categories g) in
  setitem2 tensor 0 (Z.of_nat li) 1%Qc.

End encodings.

(** One-hot matrix of first to last letters (not including EOS) for
    input. *)
Definition inputTensor (line : str) : res tensor3 :=
  let tensor := zeros3 (length line) 1 n_letters in
  for_each
    (fun tensor li =>
       letter ← getitem line (Z.of_nat li);
       setitem3 tensor (Z.of_nat li) 0 (find all_letters letter) 1%Qc)
    (range 0 (length line)) tensor.

(** The entry [inputTensor] sets for a letter: its position in
    [all_letters], and the last entry (subscript [-1]) for a letter that is
    not there. *)
Definition letter_slot (letter : N) : nat :=
  let k := find all_letters letter in
  if k <? 0 then (n_letters - 1)%nat else Z.to_nat k.

(** The block of [inputTensor(line)] for one letter. *)
Definition enc (letter : N) : matrix := [one_hot n_letters (letter_slot letter)].

(** LongTensor of second letter to end (EOS) for target. *)
Definition targetTensor (line : str) : res (list Z) :=
  letter_indexes ←
    mapM (fun li => letter ← getitem line (Z.of_nat li);
                    Ret (find all_letters letter))
         (range 1 (length line));
  Ret (letter_indexes ++ [Z.of_nat n_letters - 1]).

(** ** The network *)

(** [class RNN(nn.Module)]: the three linear layers; the dropout and the
    softmax layers have no parameters. *)
Record RNN : Type := mkRNN {
  hidden_size : nat;
  i2h : Linear;
  i2o : Linear;
  o2o : Linear;
}.

(** The parameters, in the order [rnn.parameters()] yields them. *)
Inductive pname : Type :=
  | i2h_weight | i2h_bias | i2o_weight | i2o_bias | o2o_weight | o2o_bias.

Definition parameters : list pname :=
  [i2h_weight; i2h_bias; i2o_weight; i2o_bias; o2o_weight; o2o_bias].

Definition get_param (p : pname) (r : RNN) : tensor :=
  match p with
  | i2h_weight => Mat (weight (i2h r))
  | i2h_bias => Vec (bias (i2h r))
  | i2o_weight => Mat (weight (i2o r))
  | i2o_bias => Vec (bias (i2o r))
  | o2o_weight => Mat (weight (o2o r))
  | o2o_bias => Vec (bias (o2o r))
  end.

Definition set_weight (l : Linear) (t : tensor) : Linear :=
  match t with
  | Mat m => mkLinear (in_features l) (out_features l) m (bias l)
  | Vec _ => l
  end.

Definition set_bias (l : Linear) (t : tensor) : Linear :=
  match t with
  | Vec v => mkLinear (in_features l) (out_features l) (weight l) v
  | Mat _ => l
  end.

Definition set_param (p : pname) (t : tensor) (r : RNN) : RNN :=
  match p with
  | i2h_weight => mkRNN (hidden_size r) (set_weight (i2h r) t) (i2o r) (o2o r)
  | i2h_bias => mkRNN (hidden_size r) (set_bias (i2h r) t) (i2o r) (o2o r)
  | i2o_weight => mkRNN (hidden_size r) (i2h r) (set_weight (i2o r) t) (o2o r)
  | i2o_bias => mkRNN (hidden_size r) (i2h r) (set_bias (i2o r) t) (o2o r)
  | o2o_weight => mkRNN (hidden_size r) (i2h r) (i2o r) (set_weight (o2o r) t)
  | o2o_bias => mkRNN (hidden_size r) (i2h r) (i2o r) (set_bias (o2o r) t)
  end.

(** Two modules with layers of the same sizes. *)
Definition same_dims (r r' : RNN) : Prop :=
  hidden_size r = hidden_size r' ∧
  in_features (i2h r) = in_features (i2h r') ∧
  out_features (i2h r) = out_features (i2h r') ∧
  in_features (i2o r) = in_features (i2o r') ∧
  out_features (i2o r) = out_features (i2o r') ∧
  in_features (o2o r) = in_features (o2o r') ∧
  out_features (o2o r) = out_features (o2o r').

(** What the tensor library computes and the embedding does not: the
    normaliser of [LogSoftmax], and the gradient [loss.backward()] leaves in
    every [p.grad], for the loss as a function of the parameters. *)
Class Torch : Type := {
  logsumexp : vec -> Qc;
  autograd : (RNN -> Qc) -> RNN -> pname -> tensor;
}.

(** [nn.Linear(i, o)] with initial entries [w0], [b0]. *)
Definition Linear_init (i o : nat) (w0 : nat -> nat -> Qc) (b0 : nat -> Qc)
  : Linear :=
  mkLinear i o (map (fun r => map (w0 r) (seq 0 i)) (seq 0 o)) (map b0 (seq 0 o)).

(** [RNN.__init__(input_size, hidden_size, output_size)]; [n_categories]
    is the global. *)
Definition RNN_init (n_categories input_size hidden_size output_size : nat)
    (w0 : pname -> nat -> nat -> Qc) : RNN :=
  mkRNN hidden_size
    (Linear_init (n_categories + input_size + hidden_size) hidden_size
                 (w0 i2h_weight) (w0 i2h_bias 0%nat))
    (Linear_init (n_categories + input_size + hidden_size) output_size
                 (w0 i2o_weight) (w0 i2o_bias 0%nat))
    (Linear_init (hidden_size + output_size) output_size
                 (w0 o2o_weight) (w0 o2o_bias 0%nat)).

(** The shapes the constructor gives. *)
Definition Linear_ok (i o : nat) (l : Linear) : Prop :=
  in_features l = i ∧ out_features l = o ∧
  has_shape2 o i (weight l) ∧ length (bias l) = o.

Definition RNN_ok (n_categories input_size hidden output_size : nat) (r : RNN)
  : Prop :=
  hidden_size r = hidden ∧
  Linear_ok (n_categories + input_size + hidden) hidden (i2h r) ∧
  Linear_ok (n_categories + input_size + hidden) output_size (i2o r) ∧
  Linear_ok (hidden + output_size) output_size (o2o r).

(** [nn.Dropout(0.1)] *)
Definition dropout_p : Qc := Q2Qc (1 # 10).
(** [learning_rate = 0.0005] *)
Definition learning_rate : Qc := Q2Qc (5 # 10000).
(** [max_length = 20] *)
Definition max_length : nat := 20.

Section network.
Context {T : Torch}.

(** [nn.LogSoftmax(dim=1)] *)
Definition LogSoftmax (x : matrix) : matrix :=
  map (fun row => map (fun v => (v - logsumexp row)%Qc) row) x.

(** [RNN.forward(category, input, hidden)]; [keep] is the draw of the
    dropout layer for this call. *)
Definition forward (r : RNN) (keep : nat -> bool)
    (category input hidden : matrix) : res (matrix * matrix) :=
  input_combined ← cat1 [category; input; hidden];
  hidden ← linear (i2h r) input_combined;
  output ← linear (i2o r) input_combined;
  output_combined ← cat1 [hidden; output];
  output ← linear (o2o r) output_combined;
  let output := dropout dropout_p keep output in
  let output := LogSoftmax output in
  Ret (output, hidden).

End network.

(** ** The state of the kernel *)

(** What an execution does, in order. *)
Inductive event : Type :=
  | EvPair (category line : str)   (* randomTrainingPair returned this pair *)
  | EvForward                      (* rnn(category, input, hidden) *)
  | EvBackward                     (* loss.backward() *)
  | EvUpdate (p : pname).          (* p.data.add_(-learning_rate, p.grad.data) *)

Record world : Type := World {
  (** the global [rnn]: every [p.data] *)
  rnn : RNN;
  (** every [p.grad], [None] before the first backward pass *)
  grad : pname -> option tensor;
  (** the generator of [random]: the tape and the next cell *)
  rand_tape : nat -> nat;
  rand_pos : nat;
  (** the generator behind the dropout layer: one draw per call *)
  drop_tape : nat -> nat -> bool;
  drop_pos : nat;
  trace : list event;
}.

Definition M (A : Type) : Type := world -> res (A * world).

#[global] Instance M_ret : MRet M := fun A a w => Ret (a, w).
#[global] Instance M_bind : MBind M := fun A B f m w =>
  match m w with
  | Ret (a, w') => f a w'
  | Raise e => Raise e
  end.

Definition lift {A} (r : res A) : M A := fun w =>
  match r with
  | Ret a => Ret (a, w)
  | Raise e => Raise e
  end.

Definition get : M world := fun w => Ret (w, w).

Definition emit (e : event) : M unit := fun w =>
  Ret (tt, World (rnn w) (grad w) (rand_tape w) (rand_pos w)
                 (drop_tape w) (drop_pos w) (trace w ++ [e])).

Definition set_rnn (r : RNN) (w : world) : world :=
  World r (grad w) (rand_tape w) (rand_pos w) (drop_tape w) (drop_pos w) (trace w).

Definition set_grad (gr : pname -> option tensor) (w : world) : world :=
  World (rnn w) gr (rand_tape w) (rand_pos w) (drop_tape w) (drop_pos w) (trace w).

(** The world after [n] more forward passes. *)
Definition after_forward (n : nat) (w : world) : world :=
  World (rnn w) (grad w) (rand_tape w) (rand_pos w) (drop_tape w)
        (n + drop_pos w) (trace w ++ replicate n EvForward).

(** [for x in xs: body] in the kernel. *)
Fixpoint forM {A S : Type} (body : S -> A -> M S) (xs : list A) (s : S) : M S :=
  match xs with
  | [] => mret s
  | x :: xs' => s' ← body s x; forM body xs' s'
  end.

(** [random.randint(a, b)]: some [a <= N <= b]; an empty range is a
    [ValueError]. *)
Definition randint (a b : Z) : M Z := fun w =>
  if b <? a then Raise ValueError
  else Ret (a + Z.of_nat (rand_tape w (rand_pos w)) mod (b - a + 1),
            World (rnn w) (grad w) (rand_tape w) (S (rand_pos w))
                  (drop_tape w) (drop_pos w) (trace w)).

(** Random item from a list. *)
Definition randomChoice {A} (l : list A) : M A :=
  i ← randint 0 (Z.of_nat (length l) - 1); lift (getitem l i).

(** The pairs an execution drew, in order. *)
Definition pairs_of_trace (tr : list event) : list (str * str) :=
  omap (fun e => match e with
                 | EvPair category line => Some (category, line)
                 | _ => None
                 end) tr.

#[global] Instance pname_eq_dec : EqDecision pname.
Proof. solve_decision. Defined.

(** [loss = 0] is an [int] until the first [loss += l] makes it a tensor. *)
Inductive pyloss : Type :=
  | PyInt (z : Z)
  | LossTensor (v : Qc).

Definition loss_add (loss : pyloss) (l : Qc) : pyloss :=
  match loss with
  | PyInt z => LossTensor (Q2Qc (inject_Z z) + l)%Qc
  | LossTensor v => LossTensor (v + l)%Qc
  end.

(** [loss.item()] *)
Definition item (loss : pyloss) : res Qc :=
  match loss with
  | PyInt _ => Raise AttributeError
  | LossTensor v => Ret v
  end.

(** [t.unsqueeze_(-1)] on a rank-one tensor. *)
Definition unsqueeze_last (t : list Z) : list (list Z) := map (fun x => [x]) t.

(** [n_iters = 100000], [print_every = 5000], [plot_every = 500] *)
Definition n_iters : nat := Z.to_nat 100000.
Definition print_every : nat := 5000.
Definition plot_every : nat := 500.

Section training.
Context {T : Torch}.
Variable g : globals.

(** Get a random category and random line from that category. *)
Definition randomTrainingPair : M (str * str) :=
  category ← randomChoice (all_categories g);
  lines ← lift (dict_get (category_lines g) category);
  line ← randomChoice lines;
  _ ← emit (EvPair category line);
  mret (category, line).

(** Make category, input, and target tensors from a random category, line
    pair. *)
Definition randomTrainingExample : M (matrix * tensor3 * list Z) :=
  pair ← randomTrainingPair;
  let '(category, line) := pair in
  category_tensor ← lift (categoryTensor g category);
  input_line_tensor ← lift (inputTensor line);
  target_line_tensor ← lift (targetTensor line);
  mret (category_tensor, input_line_tensor, target_line_tensor).

(** [rnn.initHidden()] *)
Definition initHidden : M matrix := fun w =>
  Ret (zeros2 1 (hidden_size (rnn w)), w).

(** [rnn(category, input, hidden)]: one forward pass of the global module,
    with a fresh draw of the dropout layer. *)
Definition call_rnn (category input hidden : matrix) : M (matrix * matrix) :=
  fun w =>
    match forward (rnn w) (drop_tape w (drop_pos w)) category input hidden with
    | Ret r =>
        Ret (r, World (rnn w) (grad w) (rand_tape w) (rand_pos w)
                      (drop_tape w) (S (drop_pos w)) (trace w ++ [EvForward]))
    | Raise e => Raise e
    end.

(** [rnn.zero_grad()]: every gradient that exists is zeroed. *)
Definition zero_grad : M unit := fun w =>
  Ret (tt, set_grad (fun p => zeros_like <$> grad w p) w).

(** The body of [for i in range(input_line_tensor.size(0))], on
    [(output, hidden, loss)]; [output] is unbound before the first
    iteration. *)
Definition train_body (category_tensor : matrix) (input_line_tensor : tensor3)
    (target_line_tensor : list (list Z))
    (st : option matrix * matrix * pyloss) (i : nat)
  : M (option matrix * matrix * pyloss) :=
  let '(_, hidden, loss) := st in
  x ← lift (getitem input_line_tensor (Z.of_nat i));
  r ← call_rnn category_tensor x hidden;
  let '(output, hidden) := r in
  t ← lift (getitem target_line_tensor (Z.of_nat i));
  l ← lift (NLLLoss output t);
  mret (Some output, hidden, loss_add loss l).

(** The loss of a recorded computation as a function of the parameters:
    the computation run again from the world [graph] it started in, on
    other parameters. *)
Definition loss_of (run : M (option matrix * matrix * pyloss)) (graph : world)
    (r : RNN) : Qc :=
  match run (set_rnn r graph) with
  | Ret ((_, _, LossTensor v), _) => v
  | _ => 0%Qc
  end.

(** [loss.backward()]: the gradient of the loss is added to every
    [p.grad]. *)
Definition backward (loss : pyloss) (loss_fn : RNN -> Qc) : M unit := fun w =>
  match loss with
  | PyInt _ => Raise AttributeError
  | LossTensor _ =>
      let d := autograd loss_fn (rnn w) in
      gr ← for_each
             (fun (gr : pname -> option tensor) p =>
                t ← match gr p with
                    | None => Ret (d p)
                    | Some old => add_ 1%Qc old (d p)
                    end;
                Ret (fun q => if decide (q = p) then Some t else gr q))
             parameters (grad w);
      Ret (tt, World (rnn w) gr (rand_tape w) (rand_pos w)
                     (drop_tape w) (drop_pos w) (trace w ++ [EvBackward]))
  end.

(** [p.data.add_(-learning_rate, p.grad.data)] *)
Definition update (p : pname) : M unit := fun w =>
  match grad w p with
  | None => Raise AttributeError
  | Some gp =>
      t ← add_ (- learning_rate)%Qc (get_param p (rnn w)) gp;
      Ret (tt, World (set_param p t (rnn w)) (grad w) (rand_tape w) (rand_pos w)
                     (drop_tape w) (drop_pos w) (trace w ++ [EvUpdate p]))
  end.

Definition train (category_tensor : matrix) (input_line_tensor : tensor3)
    (target_line_tensor : list Z) : M (matrix * Qc) :=
  let target_line_tensor := unsqueeze_last target_line_tensor in
  hidden ← initHidden;
  _ ← zero_grad;
  let loss := PyInt 0 in
  graph ← get;
  let loop :=
    forM (train_body category_tensor input_line_tensor target_line_tensor)
         (range 0 (length input_line_tensor)) (None, hidden, loss) in
  st ← loop;
  let '(output, _, loss) := st in
  _ ← backward loss (loss_of loop graph);
  _ ← forM (fun _ p => update p) parameters tt;
  output ← lift (match output with
                 | Some output => Ret output
                 | None => Raise NameError
                 end);
  v ← lift (item loss);
  mret (output, (v / Qc_of_nat (length input_line_tensor))%Qc).

(** The body of [for iter in range(1, n_iters + 1)], on
    [(all_losses, total_loss)]; the printing is left out. *)
Definition training_body (st : list Qc * Qc) (iter : nat) : M (list Qc * Qc) :=
  let '(all_losses, total_loss) := st in
  ex ← randomTrainingExample;
  let '(category_tensor, input_line_tensor, target_line_tensor) := ex in
  r ← train category_tensor input_line_tensor target_line_tensor;
  let '(output, loss) := r in
  let total_loss := (total_loss + loss)%Qc in
  if (iter mod plot_every =? 0)%nat
  then mret (all_losses ++ [(total_loss / Qc_of_nat plot_every)%Qc], 0%Qc)
  else mret (all_losses, total_loss).

Definition training_loop (n_iters : nat) : M (list Qc) :=
  st ← forM training_body (range 1 (n_iters + 1)) ([], 0%Qc);
  mret (fst st).

(** The iterations of [for i in range(max_length)] in [sample] that are
    left, on [(input, hidden, output_name)]; [break] returns. *)
Fixpoint sample_loop (category_tensor : matrix) (idxs : list nat)
    (input : tensor3) (hidden : matrix) (output_name : str) : M str :=
  match idxs with
  | [] => mret output_name
  | i :: idxs' =>
      x ← lift (getitem input 0);
      r ← call_rnn category_tensor x hidden;
      let '(output, hidden) := r in
      top ← lift (topk1 output);
      let '(topv, topi) := top in
      topi ← lift (row ← getitem topi 0; getitem row 0);
      if (topi =? n_letters - 1)%nat then mret output_name
      else
        letter ← lift (getitem all_letters (Z.of_nat topi));
        let output_name := output_name ++ [letter] in
        input ← lift (inputTensor [letter]);
        sample_loop category_tensor idxs' input hidden output_name
  end.

(** Sample from a category and starting letter. *)
Definition sample (category : str) (start_letter : str) : M str :=
  category_tensor ← lift (categoryTensor g category);
  input ← lift (inputTensor start_letter);
  hidden ← initHidden;
  let output_name := start_letter in
  sample_loop category_tensor (range 0 max_length) input hidden output_name.

(** ** What [train] and [sample] compute, step by step *)

(** The timesteps of [train] on parameters [r]: from [hidden], timestep
    [i] is one forward pass on [input[i]] with the draw [pos + i] of the
    dropout layer, and the loss of its output against [target[i]]; the
    result lists the output and the loss of every timestep. *)
Fixpoint timesteps (r : RNN) (tape : nat -> nat -> bool) (category : matrix)
    (pos : nat) (input : tensor3) (target : list Z) (hidden : matrix)
  : res (list (matrix * Qc)) :=
  match input, target with
  | [], _ => Ret []
  | x :: input', t :: target' =>
      o ← forward r (tape pos) category x hidden;
      l ← NLLLoss (fst o) [t];
      rest ← timesteps r tape category (S pos) input' target' (snd o);
      Ret ((fst o, l) :: rest)
  | _ :: _, [] => Raise IndexError
  end.

(** [p - learning_rate * g], entry by entry. *)
Definition sgd_step (p g : tensor) : tensor :=
  tensor_zip (fun x y => (x - learning_rate * y)%Qc) p g.

(** The iterations of [sample] from [input] and [hidden], at most [fuel]
    of them: the top-scoring output index of every iteration that ran. *)
Fixpoint top_indices (r : RNN) (tape : nat -> nat -> bool) (category : matrix)
    (pos fuel : nat) (input hidden : matrix) : res (list nat) :=
  match fuel with
  | O => Ret []
  | S fuel' =>
      o ← forward r (tape pos) category input hidden;
      top ← topk1 (fst o);
      topi ← (row ← getitem (snd top) 0; getitem row 0);
      if (topi =? n_letters - 1)%nat then Ret [topi]
      else
        letter ← getitem all_letters (Z.of_nat topi);
        rest ← top_indices r tape category (S pos) fuel' (enc letter) (snd o);
        Ret (topi :: rest)
  end.

(** The letters of the indices that are not the EOS index. *)
Definition letters_of (tops : list nat) : str :=
  omap (fun k => if (k =? n_letters - 1)%nat then None else all_letters !! k) tops.

(** ** Well-formed worlds and examples *)

(** The gradient of every parameter has the shape of the parameter. *)
Definition Torch_ok : Prop :=
  ∀ (f : RNN -> Qc) (r : RNN) (p : pname), same_shape (autograd f r p) (get_param p r).

(** The global [rnn] is [RNN(n_letters, hidden, n_letters)] for some
    [hidden], and every gradient that exists has the shape of its
    parameter. *)
Definition world_ok (w : world) : Prop :=
  RNN_ok (n_categories g) n_letters (hidden_size (rnn w)) n_letters (rnn w) ∧
  ∀ p gp, grad w p = Some gp → same_shape gp (get_param p (rnn w)).

(** A training example: a category row, one block per letter, and a class
    below [n_letters] per letter. *)
Definition example_ok (category_tensor : matrix) (input_line_tensor : tensor3)
    (target_line_tensor : list Z) : Prop :=
  has_shape2 1 (n_categories g) category_tensor ∧
  has_shape3 (length input_line_tensor) 1 n_letters input_line_tensor ∧
  length target_line_tensor = length input_line_tensor ∧
  Forall (fun t => 0 ≤ t < Z.of_nat n_letters) target_line_tensor.

(** ** The pairs the training loop draws *)

(** The data set: every line with its category. *)
Definition name_dataset : list (str * str) :=
  flat_map (fun category =>
              match category_lines g !! category with
              | Some lines => map (pair category) lines
              | None => []
              end)
           (all_categories g).

(** The data set [train] can run on: there is a category, every category
    has lines, and no line is empty or has a character outside
    [all_letters]. *)
Definition dataset_ok : Prop :=
  all_categories g ≠ [] ∧
  ∀ category, category ∈ all_categories g →
    ∃ lines, category_lines g !! category = Some lines ∧ lines ≠ [] ∧
             ∀ line, line ∈ lines →
               line ≠ [] ∧ Forall (fun c => c ∈ all_letters) line.

(** The pair [randomTrainingPair] returns when the generator of [random]
    is at cell [pos] of [tape]: two cells are read. *)
Definition pick (tape : nat -> nat) (pos : nat) : option (str * str) :=
  category ← all_categories g !! (tape pos mod n_categories g)%nat;
  lines ← category_lines g !! category;
  line ← lines !! (tape (S pos) mod length lines)%nat;
  Some (category, line).

(** The pairs of [n] iterations in a row. *)
Fixpoint picks (tape : nat -> nat) (pos n : nat) : list (str * str) :=
  match n with
  | O => []
  | S n' =>
      match pick tape pos with
      | Some p => p :: picks tape (2 + pos) n'
      | None => []
      end
  end.

(** What one iteration of the training loop does on a pair: the pair is
    drawn, one forward pass per letter, one backward pass, one step per
    parameter. *)
Definition example_events (p : str * str) : list event :=
  EvPair (fst p) (snd p)
  :: replicate (length (snd p)) EvForward ++ [EvBackward] ++ map EvUpdate parameters.

(** Get multiple samples from one category and multiple starting letters;
    the printed names are returned. *)
Definition samples (category : str) (start_letters : str) : M (list str) :=
  forM (fun printed start_letter =>
          name ← sample category [start_letter];
          mret (printed ++ [name]))
       start_letters [].

End training.

End Names.

(* ===================================================================== *)
(** * Sequence models: the part-of-speech tagger                          *)
(* ===================================================================== *)

Module Tagger.

(** ** The vocabulary *)

Section vocabulary.
Context {K : Type} `{Countable K}.

(** [if word not in word_to_ix: word_to_ix[word] = len(word_to_ix)] *)
Definition add_word (word_to_ix : gmap K nat) (word : K) : gmap K nat :=
  match word_to_ix !! word with
  | None => <[word := size word_to_ix]> word_to_ix
  | Some _ => word_to_ix
  end.

(** [for word in sent] and [for sent, tags in training_data], from a
    given dict. *)
Definition add_sent (word_to_ix : gmap K nat) (sent : list K) : gmap K nat :=
  foldl add_word word_to_ix sent.

Definition add_data {G} (word_to_ix : gmap K nat)
    (training_data : list (list K * G)) : gmap K nat :=
  foldl (fun m ex => add_sent m (fst ex)) word_to_ix training_data.

(** The dict after every iteration of the inner loop, in order. *)
Fixpoint states_sent (word_to_ix : gmap K nat) (sent : list K)
  : list (gmap K nat) :=
  match sent with
  | [] => []
  | word :: sent' =>
      let m := add_word word_to_ix word in m :: states_sent m sent'
  end.

Fixpoint states_data {G} (word_to_ix : gmap K nat)
    (training_data : list (list K * G)) : list (gmap K nat) :=
  match training_data with
  | [] => []
  | ex :: rest =>
      states_sent word_to_ix (fst ex)
        ++ states_data (add_sent word_to_ix (fst ex)) rest
  end.

(** [prepare_sequence(seq, to_ix)] *)
Definition prepare_sequence (seq : list K) (to_ix : gmap K nat)
  : res (list nat) :=
  mapM (fun w => dict_get to_ix w) seq.

(** Every index below the size is taken, by one key only. *)
Definition dense (m : gmap K nat) : Prop :=
  (∀ i, (∃ w, m !! w = Some i) ↔ (i < size m)%nat) ∧
  (∀ w w' i, m !! w = Some i → m !! w' = Some i → w = w').

End vocabulary.

(** The data of the notebook. *)
Definition training_data : list (list str * list str) :=
  [ (split_ws (lit "The dog ate the apple"),
     [lit "DET"; lit "NN"; lit "V"; lit "DET"; lit "NN"]);
    (split_ws (lit "Everybody read that book"),
     [lit "NN"; lit "V"; lit "DET"; lit "NN"]) ].

Definition word_to_ix : gmap str nat := add_data ∅ training_data.

Definition tag_to_ix : gmap str nat :=
  <[lit "DET" := 0%nat]> (<[lit "NN" := 1%nat]> (<[lit "V" := 2%nat]> ∅)).

(** ** The training loop *)

(** The model, the loss and the optimizer come from the tensor library;
    on index sequences built by [prepare_sequence] they do not raise. *)
Class TaggerLib : Type := {
  Model : Type;
  Scores : Type;
  Loss : Type;
  (** [model.zero_grad()] *)
  model_zero_grad : Model -> Model;
  (** [model.hidden = model.init_hidden()] *)
  reset_hidden : Model -> Model;
  (** [model(sentence_in)]; the call also replaces [model.hidden] *)
  model_forward : Model -> list nat -> Scores * Model;
  (** [loss_function(tag_scores, targets)] *)
  loss_function : Scores -> list nat -> Loss;
  (** [loss.backward()] *)
  loss_backward : Loss -> Model -> Model;
  (** [optimizer.step()] *)
  optimizer_step : Model -> Model;
}.

Section loop.
Context {L : TaggerLib}.
Variable training_data : list (list str * list str).
Variables word_to_ix tag_to_ix : gmap str nat.

(** The body of [for sentence, tags in training_data] in epoch [epoch];
    the state is the model and the list of the examples processed so far,
    each with its epoch. *)
Definition example_body (epoch : nat)
    (st : Model * list (nat * (list str * list str)))
    (ex : list str * list str)
  : res (Model * list (nat * (list str * list str))) :=
  let '(model, log) := st in
  let '(sentence, tags) := ex in
  let model := model_zero_grad model in
  let model := reset_hidden model in
  sentence_in ← prepare_sequence sentence word_to_ix;
  targets ← prepare_sequence tags tag_to_ix;
  let '(tag_scores, model) := model_forward model sentence_in in
  let loss := loss_function tag_scores targets in
  let model := loss_backward loss model in
  let model := optimizer_step model in
  Ret (model, log ++ [(epoch, ex)]).

(** [for epoch in range(n)] *)
Definition epoch_body (st : Model * list (nat * (list str * list str)))
    (epoch : nat) : res (Model * list (nat * (list str * list str))) :=
  for_each (example_body epoch) training_data st.

Definition training_loop (n : nat) (model : Model)
  : res (Model * list (nat * (list str * list str))) :=
  for_each epoch_body (range 0 n) (model, []).

End loop.

(** [for epoch in range(300)] *)
Definition n_epochs : nat := 300.

End Tagger.

(* ===================================================================== *)
(** * A small concrete platform, for examples                             *)
(* ===================================================================== *)

Module Demo.
Import Names.

(** The canonical decompositions of the Latin-1 letters: code point, base
    letter, combining mark. *)
Definition latin1_decomposition : list (N * (N * N)) :=
  [ (192, (65, 768)); (193, (65, 769)); (194, (65, 770)); (195, (65, 771));
    (196, (65, 776)); (197, (65, 778)); (199, (67, 807)); (200, (69, 768));
    (201, (69, 769)); (202, (69, 770)); (203, (69, 776)); (204, (73, 768));
    (205, (73, 769)); (206, (73, 770)); (207, (73, 776)); (209, (78, 771));
    (210, (79, 768)); (211, (79, 769)); (212, (79, 770)); (213, (79, 771));
    (214, (79, 776)); (217, (85, 768)); (218, (85, 769)); (219, (85, 770));
    (220, (85, 776)); (221, (89, 769)); (224, (97, 768)); (225, (97, 769));
    (226, (97, 770)); (227, (97, 771)); (228, (97, 776)); (229, (97, 778));
    (231, (99, 807)); (232, (101, 768)); (233, (101, 769)); (234, (101, 770));
    (235, (101, 776)); (236, (105, 768)); (237, (105, 769)); (238, (105, 770));
    (239, (105, 776)); (241, (110, 771)); (242, (111, 768)); (243, (111, 769));
    (244, (111, 770)); (245, (111, 771)); (246, (111, 776)); (249, (117, 768));
    (250, (117, 769)); (251, (117, 770)); (252, (117, 776)); (253, (121, 769));
    (255, (121, 776)) ]%N.

Fixpoint assoc {A B} `{EqDecision A} (k : A) (l : list (A * B)) : option B :=
  match l with
  | [] => None
  | (k', v) :: l' => if decide (k' = k) then Some v else assoc k l'
  end.

Definition decompose (c : N) : str :=
  match assoc c latin1_decomposition with
  | Some (b, m) => [b; m]
  | None => [c]
  end.

(** NFD on strings of ASCII and Latin-1 characters. *)
Definition nfd (s : str) : str := flat_map decompose s.

(** The combining diacritical marks, U+0300 to U+036F, are of category
    Mn. *)
Definition is_Mn (c : N) : bool := ((768 <=? c) && (c <=? 879))%N.

(** Two data files: [data/names/Irish.txt] and [data/names/French.txt]. *)
Definition irish_txt : str :=
  lit "O'N" ++ [233; 224]%N ++ lit "l" ++ [newline] ++ lit "Adam" ++ [newline].
Definition french_txt : str :=
  lit "Ren" ++ [233]%N ++ [newline] ++ lit "Cl" ++ [233]%N ++ lit "ment" ++ [newline].

Definition files : list (str * str) :=
  [ (lit "data/names/Irish.txt", irish_txt);
    (lit "data/names/French.txt", french_txt) ].

Definition platform : Platform := {|
  glob := fun path =>
    if decide (path = lit "data/names/*.txt") then map fst files else [];
  read_text := fun filename => assoc filename files;
  normalize_NFD := nfd;
  category_Mn := is_Mn;
|}.

(** The globals the data-loading cell leaves on this platform. *)
Definition loaded : globals :=
  match load (P := platform) with
  | Ret g => g
  | Raise _ => Globals ∅ []
  end.

(** A tensor library whose normaliser is constantly 0 and whose gradients
    are all zero. *)
Definition torch : Torch := {|
  logsumexp := fun _ => 0%Qc;
  autograd := fun _ r p => zeros_like (get_param p r);
|}.

(** [RNN(n_letters, 2, n_letters)] with all weights zero, and the output
    bias given. *)
Definition rnn_with_bias (b : nat -> Qc) : RNN :=
  RNN_init (n_categories loaded) n_letters 2 n_letters
           (fun p _ j => match p with o2o_bias => b j | _ => 0%Qc end).

(** A fresh kernel: no gradient yet, both generators at the start of their
    tapes. *)
Definition world0 (r : RNN) (rand : nat -> nat) (drop : nat -> nat -> bool)
  : world :=
  World r (fun _ => None) rand 0 drop 0 [].

(** The tensors of the pair [("Irish", "Adam")]. *)
Definition adam_category : matrix := [one_hot 2 0].
Definition adam_input : tensor3 := map enc (lit "Adam").
Definition adam_target : list Z := map (find all_letters) (lit "dam") ++ [58].

(** A tagger library that only counts the optimizer steps. *)
Definition tagger_lib : Tagger.TaggerLib := {|
  Tagger.Model := nat;
  Tagger.Scores := unit;
  Tagger.Loss := unit;
  Tagger.model_zero_grad := fun m => m;
  Tagger.reset_hidden := fun m => m;
  Tagger.model_forward := fun m _ => (tt, m);
  Tagger.loss_function := fun _ _ => tt;
  Tagger.loss_backward := fun _ m => m;
  Tagger.optimizer_step := S;
|}.

(** Zero weights and an output bias that scores the letter [a] highest
    and EOS second. *)
Definition rnn_a_then_eos : RNN :=
  rnn_with_bias (fun j => if (j =? 0)%nat then Q2Qc 2
                          else if (j =? 58)%nat then Q2Qc 1 else 0%Qc).

(** Two draws of the dropout layer: every entry kept, and every entry kept
    but the first entry of the first call. *)
Definition keep_all : nat -> nat -> bool := fun _ _ => true.
Definition drop_first : nat -> nat -> bool :=
  fun call j => negb ((call =? 0)%nat && (j =? 0)%nat).

(** A platform whose only data file holds blank lines, and the globals
    the data-loading cell leaves there. *)
Definition blank_platform : Platform := {|
  glob := fun _ => [lit "data/names/Blank.txt"];
  read_text := fun _ => Some [newline; 32%N; newline];
  normalize_NFD := nfd;
  category_Mn := is_Mn;
|}.

Definition blank_globals : globals :=
  Globals (<[lit "Blank" := [[]]]> ∅) [lit "Blank"].

(** A platform with no data file. *)
Definition empty_platform : Platform := {|
  glob := fun _ => [];
  read_text := fun _ => None;
  normalize_NFD := nfd;
  category_Mn := is_Mn;
|}.

End Demo.

(* ===================================================================== *)
(** * Properties: the vocabulary of the tagger                            *)
(* ===================================================================== *)

Module TaggerFacts.
Import Tagger.

Section vocabulary.
Context {K : Type} `{Countable K}.
Implicit Types (m : gmap K nat) (w : K) (ws : list K).

Lemma dense_empty : dense (∅ : gmap K nat).
Proof.
  split.
  - intros i. rewrite map_size_empty. split; [|lia].
    intros [w Hw]. by rewrite lookup_empty in Hw.
  - intros w w' i Hw. by rewrite lookup_empty in Hw.
Qed.

Lemma add_word_fresh m w :
  m !! w = None → add_word m w = <[w := size m]> m.
Proof. intros Hw. unfold add_word. by rewrite Hw. Qed.

Lemma add_word_known m w :
  is_Some (m !! w) → add_word m w = m.
Proof. intros [k Hk]. unfold add_word. by rewrite Hk. Qed.

Lemma dense_add_word m w : dense m → dense (add_word m w).
Proof.
  intros [Hix Hinj]. destruct (m !! w) as [k|] eqn:Hw.
  { by rewrite add_word_known. }
  rewrite add_word_fresh by done.
  assert (Hlt : ∀ w' i, m !! w' = Some i → (i < size m)%nat).
  { intros w' i Hi. apply Hix. eauto. }
  split.
  - intros i. rewrite map_size_insert_None by done. split.
    + intros [w' Hw']. rewrite lookup_insert in Hw'. case_decide.
      * inversion Hw'. lia.
      * apply Hlt in Hw'. lia.
    + intros Hi. destruct (decide (i = size m)) as [->|Hne].
      * exists w. by rewrite lookup_insert_eq.
      * destruct (proj2 (Hix i)) as [w' Hw']; [lia|].
        exists w'. rewrite lookup_insert_ne; [done|]. congruence.
  - intros w1 w2 i. rewrite !lookup_insert.
    repeat case_decide; subst; try done.
    + intros [= <-] H2. apply Hlt in H2. lia.
    + intros H1 [= <-]. apply Hlt in H1. lia.
    + apply Hinj.
Qed.

Lemma add_word_keeps m w w' k :
  m !! w' = Some k → add_word m w !! w' = Some k.
Proof.
  intros Hk. unfold add_word. destruct (m !! w) eqn:Hw; [done|].
  rewrite lookup_insert_ne; [done|]. congruence.
Qed.

Lemma add_sent_keeps ws m w k :
  m !! w = Some k → add_sent m ws !! w = Some k.
Proof.
  revert m. induction ws as [|x ws IH]; intros m Hk; [done|].
  apply IH. by apply add_word_keeps.
Qed.

Lemma dense_add_sent ws m : dense m → dense (add_sent m ws).
Proof.
  revert m. induction ws as [|x ws IH]; intros m Hd; [done|].
  apply IH. by apply dense_add_word.
Qed.

Lemma add_sent_app m ws ws' :
  add_sent m (ws ++ ws') = add_sent (add_sent m ws) ws'.
Proof. apply foldl_app. Qed.

(** The nested loops visit the words of the sentences in sequence. *)
Lemma add_data_words {G} (data : list (list K * G)) m :
  add_data m data = add_sent m (concat (map fst data)).
Proof.
  revert m. induction data as [|ex data IH]; intros m; [done|].
  simpl. rewrite add_sent_app. apply IH.
Qed.

Lemma states_sent_app m ws ws' :
  states_sent m (ws ++ ws') = states_sent m ws ++ states_sent (add_sent m ws) ws'.
Proof.
  revert m. induction ws as [|x ws IH]; intros m; [done|].
  simpl. by rewrite IH.
Qed.

Lemma states_data_words {G} (data : list (list K * G)) m :
  states_data m data = states_sent m (concat (map fst data)).
Proof.
  revert m. induction data as [|ex data IH]; intros m; [done|].
  simpl. by rewrite states_sent_app, IH.
Qed.

(** The state after [i] iterations is the dict built from the first [i]
    words. *)
Lemma states_sent_lookup ws m i m' :
  (m :: states_sent m ws) !! i = Some m' ↔
  (i ≤ length ws)%nat ∧ m' = add_sent m (take i ws).
Proof.
  revert m i. induction ws as [|x ws IH]; intros m i.
  - destruct i as [|i]; simpl.
    + split; [intros [= <-]; split; [lia|done] | intros [_ ->]; done].
    + split; [done | intros [? _]; lia].
  - destruct i as [|i].
    + simpl. split; [intros [= <-]; split; [lia|done] | intros [_ ->]; done].
    + change ((m :: states_sent m (x :: ws)) !! S i)
        with ((add_word m x :: states_sent (add_word m x) ws) !! i).
      rewrite IH. simpl. split; intros [? ?]; (split; [lia|done]).
Qed.

Lemma states_sent_last ws m :
  last (m :: states_sent m ws) = Some (add_sent m ws).
Proof.
  revert m. induction ws as [|x ws IH]; intros m; [done|].
  change (last (m :: states_sent m (x :: ws)))
    with (last (add_word m x :: states_sent (add_word m x) ws)).
  apply IH.
Qed.

End vocabulary.

(** C5: index assignment is stable within one execution.  Take the dicts
    the construction of [word_to_ix] goes through, the empty one first and
    then the one after every iteration of the inner loop, the last being the
    finished [word_to_ix].  Every one of them is injective with exactly the
    indices [0 .. size-1]; a binding present at one point is the same at
    every later point; and the iteration on a word changes the dict only
    when the word is not bound yet (its first occurrence), binding it to the
    current size. *)
Theorem word_to_ix_assignment_stable {K : Type} `{Countable K} {G : Type}
    (training_data : list (list K * G)) :
  let states := ∅ :: states_data ∅ training_data in
  let words := concat (map fst training_data) in
  last states = Some (add_data ∅ training_data) ∧
  Forall dense states ∧
  (∀ i j m m' w k,
      (i ≤ j)%nat → states !! i = Some m → states !! j = Some m' →
      m !! w = Some k → m' !! w = Some k) ∧
  (∀ i m m' w,
      states !! i = Some m → states !! S i = Some m' → words !! i = Some w →
      (is_Some (m !! w) → m' = m) ∧
      (m !! w = None → m' = <[w := size m]> m)).
Proof.
  intros states words. subst states.
  rewrite states_data_words, add_data_words. fold words.
  split; [apply states_sent_last|]. split; [|split].
  - apply Forall_lookup. intros i m Hm.
    apply states_sent_lookup in Hm as [_ ->].
    apply dense_add_sent, dense_empty.
  - intros i j m m' w k Hij Hi Hj Hk.
    apply states_sent_lookup in Hi as [Hi ->].
    apply states_sent_lookup in Hj as [Hj ->].
    replace (take j words) with (take i words ++ drop i (take j words)).
    + rewrite add_sent_app. by apply add_sent_keeps.
    + rewrite <- (take_drop i (take j words)) at 2.
      f_equal. rewrite take_take. f_equal. lia.
  - intros i m m' w Hi HSi Hw.
    apply states_sent_lookup in Hi as [Hi ->].
    apply states_sent_lookup in HSi as [HSi ->].
    rewrite (take_S_r _ _ _ Hw), add_sent_app. simpl.
    split; [apply add_word_known | apply add_word_fresh].
Qed.

(** The dict of the notebook, as its cell prints it. *)
Example word_to_ix_printed :
  map (fun w => word_to_ix !! w)
      (split_ws (lit "The dog ate the apple Everybody read that book"))
  = map Some (seq 0 9).
Proof. vm_compute. reflexivity. Qed.

End TaggerFacts.

(* ===================================================================== *)
(** * Properties: Python builtins                                         *)
(* ===================================================================== *)

Module PyFacts.

Lemma bind_Ret {A B} (m : res A) (f : A → res B) (b : B) :
  m ≫= f = Ret b ↔ ∃ a, m = Ret a ∧ f a = Ret b.
Proof.
  destruct m as [a|e]; simpl.
  - split; [eauto | intros (a' & [= <-] & ?); done].
  - split; [done | intros (a' & [=] & _)].
Qed.

Lemma subscript_nat (len i : nat) :
  (i < len)%nat → subscript len (Z.of_nat i) = Ret i.
Proof.
  intros Hi. unfold subscript.
  destruct (Z.leb_spec 0 (Z.of_nat i)); [|lia].
  destruct (Z.ltb_spec (Z.of_nat i) (Z.of_nat len)); [|lia].
  simpl. by rewrite Nat2Z.id.
Qed.

Lemma subscript_minus_one (len : nat) :
  (0 < len)%nat → subscript len (-1) = Ret (len - 1)%nat.
Proof.
  intros Hlen. unfold subscript. simpl.
  destruct (Z.leb_spec (- Z.of_nat len) (-1)); [|lia].
  simpl. f_equal. lia.
Qed.

Lemma subscript_lt (len : nat) i k :
  subscript len i = Ret k → (k < len)%nat.
Proof.
  unfold subscript.
  destruct (Z.leb_spec 0 i), (Z.ltb_spec i (Z.of_nat len)); simpl;
    try (intros [= <-]; lia);
    destruct (Z.leb_spec (- Z.of_nat len) i), (Z.ltb_spec i 0); simpl;
    try done; intros [= <-]; lia.
Qed.

Lemma getitem_nat {A} (xs : list A) (i : nat) x :
  xs !! i = Some x → getitem xs (Z.of_nat i) = Ret x.
Proof.
  intros Hx. unfold getitem.
  rewrite subscript_nat by (by eapply lookup_lt_Some). simpl. by rewrite Hx.
Qed.

Lemma setitem_nat {A} (xs : list A) (i : nat) x :
  (i < length xs)%nat → setitem xs (Z.of_nat i) x = Ret (<[i := x]> xs).
Proof. intros Hi. unfold setitem. by rewrite subscript_nat. Qed.

Lemma setitem_subscript {A} (xs : list A) (i : Z) (k : nat) x :
  subscript (length xs) i = Ret k → setitem xs i x = Ret (<[k := x]> xs).
Proof. intros Hk. unfold setitem. by rewrite Hk. Qed.

Lemma getitem_zero {A} (xs : list A) x :
  xs !! 0%nat = Some x → getitem xs 0 = Ret x.
Proof. apply (getitem_nat xs 0). Qed.

Lemma setitem_zero {A} (xs : list A) x :
  (0 < length xs)%nat → setitem xs 0 x = Ret (<[0%nat := x]> xs).
Proof. apply (setitem_nat xs 0). Qed.

(** [find] returns the first position of the character, or [-1]. *)
Lemma find_spec (s : str) (c : N) :
  (find s c = -1 ∧ c ∉ s) ∨
  (∃ k : nat, find s c = Z.of_nat k ∧ s !! k = Some c ∧ c ∉ take k s).
Proof.
  induction s as [|x s IH]; simpl.
  - left. split; [done | apply not_elem_of_nil].
  - destruct (N.eqb_spec x c) as [->|Hne].
    + right. exists 0%nat. repeat split. simpl. apply not_elem_of_nil.
    + destruct IH as [[Hf Hnot]|(k & Hf & Hk & Hnot)]; rewrite Hf.
      * left. split; [done|]. rewrite not_elem_of_cons. split; [congruence|done].
      * right. exists (S k).
        destruct (Z.ltb_spec (Z.of_nat k) 0); [lia|].
        split; [lia|]. split; [done|]. simpl.
        rewrite not_elem_of_cons. split; [congruence|done].
Qed.

Lemma find_range (s : str) (c : N) : -1 ≤ find s c < Z.of_nat (length s).
Proof.
  destruct (find_spec s c) as [[-> _]|(k & -> & Hk & _)]; [lia|].
  apply lookup_lt_Some in Hk. lia.
Qed.

Lemma find_elem_of (s : str) (c : N) :
  c ∈ s → ∃ k : nat, find s c = Z.of_nat k ∧ s !! k = Some c ∧ c ∉ take k s.
Proof. intros Hc. destruct (find_spec s c) as [[_ Hn]|?]; [done|done]. Qed.

Lemma contains_elem_of (s : str) (c : N) : contains s c = true ↔ c ∈ s.
Proof.
  unfold contains. rewrite existsb_exists, list_elem_of_In.
  split.
  - intros (x & Hx & Heq). apply N.eqb_eq in Heq. by subst.
  - intros Hc. exists c. split; [done | apply N.eqb_refl].
Qed.

Lemma index_spec {A} `{EqDecision A} (xs : list A) (x : A) :
  x ∈ xs → ∃ li, index xs x = Ret li ∧ xs !! li = Some x ∧ x ∉ take li xs.
Proof.
  induction xs as [|y xs IH]; [by intros ?%elem_of_nil|].
  intros Hx. simpl. destruct (decide (y = x)) as [->|Hne].
  - exists 0%nat. repeat split. simpl. apply not_elem_of_nil.
  - apply elem_of_cons in Hx as [->|Hx]; [done|].
    destruct (IH Hx) as (li & -> & Hli & Hnot). exists (S li).
    repeat split; [done|]. simpl. rewrite not_elem_of_cons. split; [congruence|done].
Qed.

Lemma index_absent {A} `{EqDecision A} (xs : list A) (x : A) :
  x ∉ xs → index xs x = Raise ValueError.
Proof.
  induction xs as [|y xs IH]; [done|].
  rewrite not_elem_of_cons. intros [Hne Hx]. simpl.
  destruct (decide (y = x)); [congruence|]. by rewrite IH.
Qed.

Lemma mapM_Ret {A B} (f : A → res B) (g : A → B) (l : list A) :
  (∀ x, x ∈ l → f x = Ret (g x)) → mapM f l = Ret (map g l).
Proof.
  induction l as [|x l IH]; intros Hf; [done|].
  simpl. rewrite (Hf x) by left. simpl.
  rewrite IH; [done|]. intros y Hy. apply Hf. by right.
Qed.

Lemma for_each_app {A S} (body : S → A → res S) (xs ys : list A) (s : S) :
  for_each body (xs ++ ys) s = for_each body xs s ≫= for_each body ys.
Proof.
  revert s. induction xs as [|x xs IH]; intros s; [done|].
  simpl. destruct (body s x); simpl; [apply IH | done].
Qed.

End PyFacts.
Import PyFacts.

(* ===================================================================== *)
(** * Properties: the encodings of the name generator                     *)
(* ===================================================================== *)

Module EncodingFacts.
Import Names.

Lemma length_zeros1 n : length (zeros1 n) = n.
Proof. apply length_replicate. Qed.

Lemma one_hot_length n k : length (one_hot n k) = n.
Proof. unfold one_hot. by rewrite length_insert, length_zeros1. Qed.

Lemma one_hot_one_hot_at n k : (k < n)%nat → one_hot_at k (one_hot n k).
Proof.
  intros Hk. split; [by rewrite one_hot_length|].
  intros j. rewrite one_hot_length. intros Hj. unfold one_hot.
  destruct (decide (j = k)) as [->|Hne].
  - apply list_lookup_insert_eq. by rewrite length_zeros1.
  - rewrite list_lookup_insert_ne by done. by apply lookup_replicate_2.
Qed.

(** A one-hot vector has exactly one entry 1. *)
Lemma one_hot_at_unique k v j :
  one_hot_at k v → v !! j = Some 1%Qc → j = k.
Proof.
  intros [_ Hv] Hj. pose proof (lookup_lt_Some _ _ _ Hj) as Hlt.
  rewrite (Hv j Hlt) in Hj. by destruct (decide (j = k)).
Qed.

Lemma n_letters_eq : n_letters = 59%nat.
Proof. vm_compute. reflexivity. Qed.

Lemma length_all_letters : length all_letters = 58%nat.
Proof. vm_compute. reflexivity. Qed.

(** The alphabet is not unfolded by the simplifier from here on. *)
#[global] Opaque all_letters.

Lemma NoDup_all_letters : NoDup all_letters.
Proof. apply (bool_decide_unpack _). vm_compute. exact I. Qed.

Lemma letter_slot_lt c : (letter_slot c < n_letters)%nat.
Proof.
  unfold letter_slot. pose proof (find_range all_letters c) as Hr.
  rewrite length_all_letters in Hr. rewrite n_letters_eq.
  destruct (Z.ltb_spec (find all_letters c) 0); lia.
Qed.

Lemma letter_slot_elem_of c :
  c ∈ all_letters →
  find all_letters c = Z.of_nat (letter_slot c) ∧
  all_letters !! letter_slot c = Some c.
Proof.
  intros Hc. destruct (find_elem_of _ _ Hc) as (k & Hf & Hk & _).
  unfold letter_slot. rewrite Hf.
  destruct (Z.ltb_spec (Z.of_nat k) 0); [lia|].
  by rewrite Nat2Z.id.
Qed.

Lemma subscript_find c :
  subscript n_letters (find all_letters c) = Ret (letter_slot c).
Proof.
  unfold letter_slot. pose proof (find_range all_letters c) as Hr.
  rewrite length_all_letters in Hr.
  destruct (Z.ltb_spec (find all_letters c) 0) as [Hneg|Hpos].
  - replace (find all_letters c) with (-1) by lia.
    by rewrite subscript_minus_one by (rewrite n_letters_eq; lia).
  - rewrite <- (Z2Nat.id (find all_letters c)) at 1 by done.
    apply subscript_nat. rewrite n_letters_eq. lia.
Qed.

Lemma setitem2_zero_row (n : nat) (j : Z) (k : nat) :
  subscript n j = Ret k →
  setitem2 (zeros2 1 n) 0 j 1%Qc = Ret [one_hot n k].
Proof.
  intros Hj. unfold setitem2, zeros2.
  rewrite (getitem_zero (replicate 1 (zeros1 n)) (zeros1 n)) by done.
  cbn [mbind res_bind].
  rewrite (setitem_subscript (zeros1 n) j k) by (by rewrite length_zeros1).
  cbn [mbind res_bind]. by rewrite setitem_zero by (simpl; lia).
Qed.

Section input_loop.
Variables (line : str) (z : matrix) (block : N → matrix).
Hypothesis set_block :
  ∀ c, setitem2 z 0 (find all_letters c) 1%Qc = Ret (block c).

Lemma inputTensor_loop (n a : nat) :
  (a + n)%nat = length line →
  for_each
    (fun tensor li =>
       letter ← getitem line (Z.of_nat li);
       setitem3 tensor (Z.of_nat li) 0 (find all_letters letter) 1%Qc)
    (seq a n) (map block (take a line) ++ replicate n z)
  = Ret (map block line).
Proof using set_block.
  revert a. induction n as [|n IH]; intros a Ha.
  - simpl. rewrite app_nil_r, take_ge by lia. done.
  - destruct (lookup_lt_is_Some_2 line a) as [c Hc]; [lia|].
    assert (Hlen : length (map block (take a line)) = a).
    { rewrite length_map, length_take. lia. }
    assert (Hz : (map block (take a line) ++ replicate (S n) z) !! a = Some z).
    { rewrite lookup_app_r by lia. rewrite Hlen, Nat.sub_diag. done. }
    cbn [seq for_each].
    rewrite (getitem_nat _ _ _ Hc). cbn [mbind res_bind].
    unfold setitem3.
    rewrite (getitem_nat _ _ _ Hz). cbn [mbind res_bind].
    rewrite set_block. cbn [mbind res_bind].
    rewrite setitem_nat by (rewrite length_app, Hlen; simpl; lia).
    cbn [mbind res_bind].
    replace (<[a:=block c]> (map block (take a line) ++ replicate (S n) z))
      with (map block (take (S a) line) ++ replicate n z).
    + apply IH. lia.
    + rewrite (take_S_r _ _ _ Hc), map_app, <- app_assoc.
      rewrite insert_app_r_alt by lia. rewrite Hlen, Nat.sub_diag. done.
Qed.

End input_loop.

(** [inputTensor] never raises: row [i] is the one-hot block of letter
    [i]. *)
Lemma inputTensor_eq (line : str) : inputTensor line = Ret (map enc line).
Proof.
  unfold inputTensor, range, zeros3. rewrite Nat.sub_0_r.
  apply (inputTensor_loop line (zeros2 1 n_letters) enc); [|done].
  intros c. apply setitem2_zero_row, subscript_find.
Qed.

Lemma categoryTensor_eq (g : globals) (category : str) (li : nat) :
  index (all_categories g) category = Ret li →
  (li < n_categories g)%nat →
  categoryTensor g category = Ret [one_hot (n_categories g) li].
Proof.
  intros Hli Hlt. unfold categoryTensor. rewrite Hli. cbn [mbind res_bind].
  apply setitem2_zero_row. by apply subscript_nat.
Qed.

Lemma targetTensor_eq (line : str) :
  targetTensor line =
  Ret (map (find all_letters) (drop 1 line) ++ [Z.of_nat n_letters - 1]).
Proof.
  unfold targetTensor, range.
  assert (Hmap : mapM (fun li => letter ← getitem line (Z.of_nat li);
                                  Ret (find all_letters letter))
                      (seq 1 (length line - 1))
                 = Ret (map (find all_letters) (drop 1 line))).
  { destruct line as [|c0 line]; [done|].
    replace (length (c0 :: line) - 1)%nat with (length line) by (simpl; lia).
    change (drop 1 (c0 :: line)) with line.
    transitivity (Ret (A:=list Z) (map (fun li => find all_letters (default 0%N ((c0 :: line) !! li)))
                             (seq 1 (length line)))).
    - apply mapM_Ret. intros li Hli. apply elem_of_seq in Hli.
      destruct (lookup_lt_is_Some_2 (c0 :: line) li) as [c Hc]; [simpl; lia|].
      rewrite (getitem_nat _ _ _ Hc). cbn [mbind res_bind]. by rewrite Hc.
    - f_equal. apply list_eq. intros i. rewrite !list_lookup_fmap.
      destruct (decide (i < length line)%nat) as [Hi|Hi].
      + rewrite lookup_seq_lt by done. simpl.
        destruct (lookup_lt_is_Some_2 line i Hi) as [c ->]. done.
      + rewrite lookup_seq_ge by lia. rewrite lookup_ge_None_2 by lia. done. }
  rewrite Hmap. reflexivity.
Qed.

Lemma enc_shape c : has_shape2 1 n_letters (enc c).
Proof.
  split; [done|]. repeat constructor. apply one_hot_length.
Qed.

(** C4: the input encodings are one-hot.  For a category of
    [all_categories], [categoryTensor] returns one row of [n_categories]
    entries that is 1 at the index of the category (its first position in
    [all_categories]) and 0 elsewhere.  For a line over [all_letters],
    [inputTensor] returns a tensor of shape [(len(line), 1, n_letters)]
    whose block [i] is one row, 1 at the position of letter [i] in
    [all_letters] and 0 elsewhere. *)
Theorem encodings_one_hot (g : globals) :
  (∀ category, category ∈ all_categories g →
     ∃ (li : nat) (row : vec),
       all_categories g !! li = Some category ∧
       (category ∉ take li (all_categories g)) ∧
       categoryTensor g category = Ret [row] ∧
       length row = n_categories g ∧
       one_hot_at li row) ∧
  (∀ line, Forall (fun c => c ∈ all_letters) line →
     ∃ t : tensor3,
       inputTensor line = Ret t ∧
       has_shape3 (length line) 1 n_letters t ∧
       ∀ (i : nat) (c : N), line !! i = Some c →
         ∃ (row : vec) (k : nat),
           t !! i = Some [row] ∧
           find all_letters c = Z.of_nat k ∧
           all_letters !! k = Some c ∧
           one_hot_at k row).
Proof.
  split.
  - intros category Hc.
    destruct (index_spec _ _ Hc) as (li & Hli & Hlook & Hfirst).
    assert (Hlt : (li < n_categories g)%nat) by (by eapply lookup_lt_Some).
    exists li, (one_hot (n_categories g) li).
    repeat split; [done|done|by apply categoryTensor_eq|apply one_hot_length| |].
    + by rewrite one_hot_length.
    + by apply one_hot_one_hot_at.
  - intros line Hline. exists (map enc line).
    split; [apply inputTensor_eq|]. split.
    + split; [by rewrite length_map|].
      apply Forall_fmap, Forall_forall. intros c _. apply enc_shape.
    + intros i c Hi.
      assert (Hc : c ∈ all_letters).
      { eapply Forall_lookup_1 in Hline; [exact Hline|exact Hi]. }
      destruct (letter_slot_elem_of c Hc) as [Hfind Hslot].
      exists (one_hot n_letters (letter_slot c)), (letter_slot c).
      repeat split; [by rewrite list_lookup_fmap, Hi|done|done| |].
      * rewrite one_hot_length. apply letter_slot_lt.
      * apply one_hot_one_hot_at, letter_slot_lt.
Qed.

(** C9: for a non-empty line, [targetTensor(line)] has [len(line)]
    entries, the last one is the EOS index [n_letters - 1], entry [i] for
    [i < len(line) - 1] is [all_letters.find(line[i+1])], and
    [inputTensor(line)] has the same first dimension. *)
Theorem targetTensor_aligned (line : str) :
  line ≠ [] →
  ∃ (target : list Z) (input : tensor3),
    targetTensor line = Ret target ∧
    inputTensor line = Ret input ∧
    length target = length line ∧
    last target = Some (Z.of_nat n_letters - 1) ∧
    (∀ i : nat, (i < length line - 1)%nat →
       ∃ c, line !! S i = Some c ∧ target !! i = Some (find all_letters c)) ∧
    length input = length target.
Proof.
  intros Hne. destruct line as [|c0 line]; [done|].
  eexists _, _. split; [apply targetTensor_eq|]. split; [apply inputTensor_eq|].
  change (drop 1 (c0 :: line)) with line.
  repeat split.
  - rewrite length_app, length_map. simpl. lia.
  - apply last_snoc.
  - intros i Hi. simpl in Hi. rewrite Nat.sub_0_r in Hi.
    destruct (lookup_lt_is_Some_2 line i Hi) as [c Hc].
    exists c. split; [done|].
    rewrite lookup_app_l by (by rewrite length_map).
    by rewrite list_lookup_fmap, Hc.
  - rewrite length_map, length_app, length_map. simpl. lia.
Qed.

Lemma targetTensor_aligned_witness :
  lit "Adam" ≠ [] ∧
  ∃ (target : list Z) (input : tensor3),
    targetTensor (lit "Adam") = Ret target ∧
    inputTensor (lit "Adam") = Ret input ∧
    length target = length (lit "Adam") ∧
    last target = Some (Z.of_nat n_letters - 1) ∧
    (∀ i : nat, (i < length (lit "Adam") - 1)%nat →
       ∃ c, lit "Adam" !! S i = Some c ∧ target !! i = Some (find all_letters c)) ∧
    length input = length target.
Proof.
  split; [discriminate|]. apply (targetTensor_aligned (lit "Adam")). discriminate.
Defined.

(** On the empty line the two lengths differ: the target is the EOS index
    alone. *)
Example targetTensor_empty :
  targetTensor [] = Ret [58] ∧ inputTensor [] = Ret [].
Proof. split; reflexivity. Qed.

End EncodingFacts.

(* ===================================================================== *)
(** * Properties: loading the data                                        *)
(* ===================================================================== *)

Module LoadingFacts.
Import Names.

(** ** [strip], [split], [basename], [splitext] *)

Lemma lstrip_spec (s : str) :
  ∃ pre, s = pre ++ lstrip s ∧ Forall (fun c => isspace c = true) pre ∧
         ∀ c, head (lstrip s) = Some c → isspace c = false.
Proof.
  induction s as [|x s (pre & Heq & Hpre & Hhead)].
  - exists []. repeat split; [constructor | done].
  - simpl. destruct (isspace x) eqn:Hx.
    + exists (x :: pre). split; [simpl; congruence|]. split; [by constructor | done].
    + exists []. split; [done|]. split; [constructor|].
      simpl. intros c [= <-]. done.
Qed.

Lemma rstrip_spec (s : str) :
  ∃ post, s = rstrip s ++ post ∧ Forall (fun c => isspace c = true) post ∧
          ∀ c, last (rstrip s) = Some c → isspace c = false.
Proof.
  induction s as [|x s (post & Heq & Hpost & Hlast)].
  - exists []. repeat split; [constructor | done].
  - simpl. destruct (rstrip s) as [|y r] eqn:Hr.
    + simpl in Heq. subst post. destruct (isspace x) eqn:Hx.
      * exists (x :: s). split; [done|]. split; [by constructor | done].
      * exists s. split; [done|]. split; [done|]. simpl. intros c [= <-]. done.
    + exists post. split; [by rewrite Heq at 1|]. split; [done|].
      intros c Hc. apply Hlast. by rewrite last_cons_cons in Hc.
Qed.

Lemma rstrip_head (s : str) c :
  head (rstrip s) = Some c → head s = Some c.
Proof.
  destruct (rstrip_spec s) as (post & Heq & _). intros Hc.
  rewrite Heq. destruct (rstrip s); [done|]. done.
Qed.

Lemma strip_spec (content : str) : is_stripped content (strip content).
Proof.
  destruct (lstrip_spec content) as (pre & Heq & Hpre & Hhead).
  destruct (rstrip_spec (lstrip content)) as (post & Heq' & Hpost & Hlast).
  exists pre, post. unfold strip. repeat split; try done.
  - by rewrite <- Heq'.
  - intros c Hc. apply Hhead. by apply rstrip_head.
Qed.

Lemma split_nonempty sep (s : str) : split sep s ≠ [].
Proof.
  destruct s as [|c s]; [done|]. simpl.
  destruct (N.eqb c sep); [done|]. by destruct (split sep s).
Qed.

Lemma split_spec (s : str) : is_split s (split newline s).
Proof.
  split; [apply split_nonempty|].
  induction s as [|c s [IHj IHf]]; [split; [done|repeat constructor; apply not_elem_of_nil]|].
  simpl. destruct (N.eqb_spec c newline) as [->|Hne].
  - pose proof (split_nonempty newline s) as Hn.
    split.
    + destruct (split newline s) as [|h t] eqn:Hs; [done|].
      cbn [join]. simpl. by rewrite <- IHj.
    + constructor; [apply not_elem_of_nil | done].
  - pose proof (split_nonempty newline s) as Hn.
    destruct (split newline s) as [|h t] eqn:Hs; [done|].
    apply Forall_cons in IHf as [Hh Ht]. split.
    + rewrite <- IHj. by destruct t.
    + constructor; [|done]. rewrite not_elem_of_cons. split; [congruence | done].
Qed.

Lemma rfind_from_absent (s : str) c i acc :
  c ∉ s → rfind_from i s c acc = acc.
Proof.
  revert i. induction s as [|x s IH]; intros i Hc; [done|].
  apply not_elem_of_cons in Hc as [Hne Hc]. simpl.
  destruct (N.eqb_spec x c); [congruence|]. by apply IH.
Qed.

Lemma rfind_from_last (a b : str) c i acc :
  c ∉ b → rfind_from i (a ++ c :: b) c acc = i + Z.of_nat (length a).
Proof.
  revert i acc. induction a as [|x a IH]; intros i acc Hc.
  - simpl. rewrite N.eqb_refl, rfind_from_absent by done. lia.
  - simpl. rewrite IH by done. lia.
Qed.

Lemma rfind_absent (s : str) c : c ∉ s → rfind s c = -1.
Proof. apply rfind_from_absent. Qed.

Lemma rfind_last (a b : str) c :
  c ∉ b → rfind (a ++ c :: b) c = Z.of_nat (length a).
Proof. intros Hc. unfold rfind. by rewrite rfind_from_last. Qed.

Lemma basename_last (dir name : str) :
  slash ∉ name → basename (dir ++ slash :: name) = name.
Proof.
  intros Hn. unfold basename, slice_from. rewrite rfind_last by done.
  replace (Z.to_nat (Z.of_nat (length dir) + 1)) with (length (dir ++ [slash])).
  - rewrite (cons_middle slash dir name), app_assoc. apply drop_app_length.
  - rewrite length_app. simpl. lia.
Qed.

Lemma splitext_name (name ext : str) :
  name ≠ [] → head name ≠ Some dot → slash ∉ name → slash ∉ ext → dot ∉ ext →
  splitext (name ++ dot :: ext) = (name, dot :: ext).
Proof.
  intros Hne Hhead Hs1 Hs2 Hd. unfold splitext.
  rewrite rfind_absent, rfind_last by (try done; rewrite elem_of_app, elem_of_cons;
    intros [?|[?|?]]; done).
  destruct name as [|c0 name]; [done|].
  destruct (Z.ltb_spec (-1) (Z.of_nat (length (c0 :: name)))); [|lia].
  replace (Z.to_nat (Z.of_nat (length (c0 :: name)) - (-1 + 1)))
    with (S (length name)) by (simpl; lia).
  cbn [seq map splitext_scan]. change (Z.to_nat (-1 + 1 + Z.of_nat 0)) with 0%nat.
  cbn [lookup list_lookup app].
  destruct (N.eqb_spec c0 dot) as [->|_]; [done|].
  cbn [negb]. unfold slice_to, slice_from. rewrite Nat2Z.id.
  change (c0 :: name ++ dot :: ext) with ((c0 :: name) ++ dot :: ext).
  rewrite take_app_length, drop_app_length. done.
Qed.

Lemma category_of_data_file (filename name : str) :
  data_file filename name → category_of filename = name.
Proof.
  intros (-> & Hne & Hslash & Hhead). unfold category_of.
  change (lit "data/names/" ++ name ++ lit ".txt")
    with (lit "data/names" ++ slash :: (name ++ dot :: lit "txt")).
  assert (Htxt : ∀ c, c ∈ lit "txt" → c ≠ slash ∧ c ≠ dot).
  { intros c Hc. apply (bool_decide_unpack _).
    revert c Hc. apply Forall_forall. apply (bool_decide_unpack _).
    vm_compute. exact I. }
  rewrite basename_last.
  - rewrite splitext_name; try done.
    + intros Hc. by destruct (Htxt _ Hc).
    + intros Hc. by destruct (Htxt _ Hc).
  - rewrite elem_of_app, elem_of_cons. intros [?|[?|Hc]]; [done|done|].
    by destruct (Htxt _ Hc).
Qed.

(** ** [unicodeToAscii] *)

Lemma filter_all {A} (f : A → bool) (l : list A) :
  Forall (fun x => f x = true) l → List.filter f l = l.
Proof.
  induction 1 as [|x l Hx _ IH]; [done|]. simpl. by rewrite Hx, IH.
Qed.

Section loading.
Context {P : Platform}.

Lemma unicodeToAscii_letters (s : str) :
  Forall (fun c => contains all_letters c = true) (unicodeToAscii s).
Proof.
  apply Forall_forall. intros c Hc. apply list_elem_of_In in Hc.
  apply filter_In in Hc as [_ Hc]. by apply andb_true_iff in Hc as [_ Hc].
Qed.

(** C10: [unicodeToAscii] is closed over the alphabet and idempotent.
    Every character of [unicodeToAscii(s)] belongs to [all_letters]; and,
    the Unicode database leaving strings over [all_letters] alone
    ([Unicode_ok]), [unicodeToAscii(unicodeToAscii(s))] is
    [unicodeToAscii(s)]. *)
Theorem unicodeToAscii_closed_idempotent (s : str) :
  Unicode_ok P →
  Forall (fun c => c ∈ all_letters) (unicodeToAscii s) ∧
  unicodeToAscii (unicodeToAscii s) = unicodeToAscii s.
Proof.
  intros [Hnfd Hmn]. pose proof (unicodeToAscii_letters s) as Hs. split.
  - eapply Forall_impl; [exact Hs|]. intros c. apply contains_elem_of.
  - unfold unicodeToAscii at 1. rewrite (Hnfd _ Hs).
    apply filter_all. eapply Forall_impl; [exact Hs|].
    intros c Hc. simpl. by rewrite (Hmn c Hc), Hc.
Qed.

(** ** The loop over the data files *)

Lemma readLines_eq (filename content : str) :
  read_text filename = Some content →
  readLines filename = Ret (map unicodeToAscii (split newline (strip content))).
Proof. intros Hr. unfold readLines. by rewrite Hr. Qed.

Lemma readLines_Ret (filename : str) (lines : list str) :
  readLines filename = Ret lines →
  ∃ content, read_text filename = Some content ∧
             lines = map unicodeToAscii (split newline (strip content)).
Proof.
  unfold readLines. destruct (read_text filename) as [content|]; [|done].
  intros [= <-]. eauto.
Qed.

Lemma readLines_raises (filename : str) e :
  readLines filename = Raise e → e = OSError.
Proof.
  unfold readLines. destruct (read_text filename); [done|]. by intros [= <-].
Qed.

Lemma load_step_Ret st filename st' :
  load_step st filename = Ret st' →
  ∃ lines, readLines filename = Ret lines ∧
           st' = (<[category_of filename := lines]> (fst st),
                  snd st ++ [category_of filename]).
Proof.
  unfold load_step. fold (category_of filename).
  destruct (readLines filename) as [lines|e]; [|done].
  intros [= <-]. eauto.
Qed.

Lemma load_loop_spec (files : list str) st st' :
  for_each load_step files st = Ret st' →
  snd st' = snd st ++ map category_of files ∧
  (∀ k, k ∉ map category_of files → fst st' !! k = fst st !! k) ∧
  (NoDup (map category_of files) →
   ∀ filename, filename ∈ files →
     ∃ lines, readLines filename = Ret lines ∧
              fst st' !! category_of filename = Some lines).
Proof.
  revert st. induction files as [|f files IH]; intros st Hrun.
  - injection Hrun as <-. rewrite app_nil_r. split; [done|]. split; [done|].
    intros _ filename Hf. by apply elem_of_nil in Hf.
  - cbn [for_each] in Hrun. apply bind_Ret in Hrun as (st1 & Hstep & Hrun).
    apply load_step_Ret in Hstep as (lines & Hlines & ->).
    destruct (IH _ Hrun) as (Hcs & Hframe & Hfiles). cbn [fst snd] in *.
    split; [by rewrite Hcs, <- app_assoc|]. split.
    + intros k Hk. cbn [map] in Hk. apply not_elem_of_cons in Hk as [Hne Hk].
      rewrite (Hframe k Hk). by rewrite lookup_insert_ne.
    + cbn [map]. intros [Hf Hnd]%NoDup_cons filename [->|Hin]%elem_of_cons.
      * exists lines. split; [done|]. rewrite (Hframe _ Hf).
        apply lookup_insert_eq.
      * by apply Hfiles.
Qed.

Lemma load_loop_raises (files : list str) st e :
  for_each load_step files st = Raise e → e = OSError.
Proof.
  revert st. induction files as [|f files IH]; intros st; [done|].
  cbn [for_each]. destruct (load_step st f) as [st1|e1] eqn:Hstep.
  - apply IH.
  - intros [= <-]. unfold load_step in Hstep.
    destruct (readLines f) as [lines|e2] eqn:Hr; [done|].
    injection Hstep as <-. by apply readLines_raises in Hr.
Qed.

Lemma load_Ret (g : globals) :
  load = Ret g →
  ∃ st, for_each load_step (findFiles (lit "data/names/*.txt")) (∅, []) = Ret st ∧
        g = Globals (fst st) (snd st) ∧ n_categories g ≠ 0%nat.
Proof.
  unfold load. intros Hload. apply bind_Ret in Hload as (st & Hloop & Hg).
  exists st. split; [done|].
  destruct (Nat.eqb_spec (n_categories (Globals (fst st) (snd st))) 0); [done|].
  injection Hg as <-. done.
Qed.

Lemma data_file_inj (filename filename' name : str) :
  data_file filename name → data_file filename' name → filename = filename'.
Proof. intros (-> & _) (-> & _). done. Qed.

(** C6: the loader treats every input file as newline-delimited names
    grouped by language.  When the data-loading cell succeeds, for every
    file [data/names/<name>.txt] the pattern matched: the file was read,
    and with [body] its content without the surrounding whitespace and
    [lines] the pieces of [body] between newlines, [readLines] returns every
    line turned to ASCII by [unicodeToAscii]; the category is [name], the
    base name without the extension; it is listed in [all_categories] and
    [category_lines] holds that list under it. *)
Theorem loader_groups_names_by_language (g : globals) (filename name : str) :
  load = Ret g →
  NoDup (findFiles (lit "data/names/*.txt")) →
  (∀ f, f ∈ findFiles (lit "data/names/*.txt") → ∃ n, data_file f n) →
  filename ∈ findFiles (lit "data/names/*.txt") →
  data_file filename name →
  ∃ content body lines,
    read_text filename = Some content ∧
    is_stripped content body ∧
    is_split body lines ∧
    readLines filename = Ret (map unicodeToAscii lines) ∧
    fst (splitext (basename filename)) = name ∧
    name ∈ all_categories g ∧
    category_lines g !! name = Some (map unicodeToAscii lines).
Proof.
  intros Hload Hnd Hshape Hin Hfile.
  apply load_Ret in Hload as (st & Hloop & -> & _).
  destruct (load_loop_spec _ _ _ Hloop) as (Hcs & _ & Hfiles).
  pose proof (category_of_data_file _ _ Hfile) as Hcat.
  destruct (Hfiles) with (filename := filename) as (ls & Hls & Hlook); [|done|].
  { apply NoDup_fmap_2_strong; [|done].
    intros f f' Hf Hf' Heq.
    destruct (Hshape _ Hf) as [n Hn], (Hshape _ Hf') as [n' Hn'].
    rewrite (category_of_data_file _ _ Hn), (category_of_data_file _ _ Hn') in Heq.
    subst n'. by eapply data_file_inj. }
  apply readLines_Ret in Hls as (content & Hread & ->).
  exists content, (strip content), (split newline (strip content)).
  split; [done|]. split; [apply strip_spec|]. split; [apply split_spec|].
  split; [by apply readLines_eq|]. split; [exact Hcat|]. cbn [all_categories category_lines].
  split.
  - rewrite Hcs. cbn [app]. rewrite <- Hcat. apply list_elem_of_fmap. eauto.
  - by rewrite <- Hcat.
Qed.

End loading.

(** The demo platform decomposes no character of the alphabet. *)
Lemma demo_platform_ok : Unicode_ok Demo.platform.
Proof.
  assert (Hall : ∀ c, contains all_letters c = true →
                      Demo.decompose c = [c] ∧ Demo.is_Mn c = false).
  { intros c Hc. apply contains_elem_of in Hc. revert c Hc.
    apply Forall_forall.
    assert (Hb : forallb (fun c => bool_decide (Demo.decompose c = [c])
                                   && negb (Demo.is_Mn c)) all_letters = true)
      by (vm_compute; reflexivity).
    apply Forall_forall. intros c Hc%list_elem_of_In.
    rewrite forallb_forall in Hb. specialize (Hb c Hc).
    apply andb_true_iff in Hb as [H1 H2].
    apply bool_decide_eq_true in H1. apply negb_true_iff in H2. done. }
  split.
  - intros s Hs. cbn [normalize_NFD Demo.platform]. unfold Demo.nfd.
    induction Hs as [|c s Hc _ IH]; [done|].
    cbn [flat_map]. rewrite IH. by rewrite (proj1 (Hall c Hc)).
  - intros c Hc. exact (proj2 (Hall c Hc)).
Qed.

Lemma unicodeToAscii_closed_idempotent_witness :
  Unicode_ok Demo.platform ∧
  Forall (fun c => c ∈ all_letters)
         (unicodeToAscii (P := Demo.platform) (lit "O'N" ++ [233; 224]%N ++ lit "l")) ∧
  unicodeToAscii (P := Demo.platform)
    (unicodeToAscii (P := Demo.platform) (lit "O'N" ++ [233; 224]%N ++ lit "l"))
  = unicodeToAscii (P := Demo.platform) (lit "O'N" ++ [233; 224]%N ++ lit "l").
Proof.
  split; [exact demo_platform_ok|].
  apply (unicodeToAscii_closed_idempotent (P := Demo.platform)
           (lit "O'N" ++ [233; 224]%N ++ lit "l") demo_platform_ok).
Defined.

(** The last line of the data-loading cell prints [O'Neal]. *)
Example unicodeToAscii_ONeal :
  unicodeToAscii (P := Demo.platform) (lit "O'N" ++ [233; 224]%N ++ lit "l")
  = lit "O'Neal".
Proof. vm_compute. reflexivity. Qed.

Lemma demo_load : load (P := Demo.platform) = Ret Demo.loaded.
Proof. vm_compute. reflexivity. Qed.

Lemma demo_files_shape (f : str) :
  f ∈ findFiles (P := Demo.platform) (lit "data/names/*.txt") →
  ∃ n, data_file f n.
Proof.
  assert (Hname : ∀ n, bool_decide (n ≠ [] ∧ (slash ∉ n) ∧ head n ≠ Some dot) = true →
            data_file (lit "data/names/" ++ n ++ lit ".txt") n).
  { intros n Hn%bool_decide_eq_true. by split. }
  change (findFiles (P := Demo.platform) (lit "data/names/*.txt"))
    with [lit "data/names/Irish.txt"; lit "data/names/French.txt"].
  intros [->|[->|Hf%elem_of_nil]%elem_of_cons]%elem_of_cons; [| |done].
  - exists (lit "Irish"). apply (Hname (lit "Irish")). vm_compute. reflexivity.
  - exists (lit "French"). apply (Hname (lit "French")). vm_compute. reflexivity.
Qed.

Lemma loader_groups_names_by_language_witness :
  ∃ content body lines,
    read_text (Platform := Demo.platform) (lit "data/names/Irish.txt") = Some content ∧
    is_stripped content body ∧
    is_split body lines ∧
    readLines (P := Demo.platform) (lit "data/names/Irish.txt")
      = Ret (map (unicodeToAscii (P := Demo.platform)) lines) ∧
    fst (splitext (basename (lit "data/names/Irish.txt"))) = lit "Irish" ∧
    lit "Irish" ∈ all_categories Demo.loaded ∧
    category_lines Demo.loaded !! lit "Irish"
      = Some (map (unicodeToAscii (P := Demo.platform)) lines).
Proof.
  apply (loader_groups_names_by_language (P := Demo.platform) Demo.loaded
           (lit "data/names/Irish.txt") (lit "Irish")).
  - exact demo_load.
  - apply (bool_decide_unpack _). vm_compute. exact I.
  - exact demo_files_shape.
  - apply (bool_decide_unpack _). vm_compute. exact I.
  - split; [reflexivity|]. apply (bool_decide_unpack _). vm_compute. exact I.
Defined.

(** What the cell leaves for the two demo files. *)
Example demo_loaded_lines :
  all_categories Demo.loaded = [lit "Irish"; lit "French"] ∧
  category_lines Demo.loaded !! lit "Irish" = Some [lit "O'Neal"; lit "Adam"] ∧
  category_lines Demo.loaded !! lit "French" = Some [lit "Rene"; lit "Clement"].
Proof. vm_compute. repeat split. Qed.

End LoadingFacts.

(* ===================================================================== *)
(** * Properties: the tensor library                                      *)
(* ===================================================================== *)

Module TorchFacts.
Import Names.

Lemma has_shape2_one c (t : matrix) :
  has_shape2 1 c t ↔ ∃ row, t = [row] ∧ length row = c.
Proof.
  split.
  - intros [Hlen Hrows]. destruct t as [|row [|? ?]]; try done.
    exists row. split; [done|]. by inversion Hrows.
  - intros (row & -> & Hrow). split; [done|]. by repeat constructor.
Qed.

Lemma linear_one (l : Linear) (i o : nat) (row : vec) :
  Linear_ok i o l → length row = i →
  ∃ y, linear l [row] = Ret [y] ∧ length y = o.
Proof.
  intros (Hi & Ho & [Hw _] & Hb) Hrow.
  exists (zip_with (fun w b => (inner w row + b)%Qc) (weight l) (bias l)).
  split.
  - unfold linear. cbn [mapM]. unfold linear_row.
    rewrite Hrow, Hi, Nat.eqb_refl. reflexivity.
  - rewrite length_zip_with, Hw, Hb. lia.
Qed.

Lemma dropout_one p keep (row : vec) :
  ∃ y, dropout p keep [row] = [y] ∧ length y = length row.
Proof.
  eexists. split; [reflexivity|]. unfold dropout_row. by rewrite length_imap.
Qed.

Section forward.
Context {T : Torch}.

Lemma LogSoftmax_one (row : vec) :
  ∃ y, LogSoftmax [row] = [y] ∧ length y = length row.
Proof. eexists. split; [reflexivity|]. by rewrite length_map. Qed.

(** On rows of the sizes of the constructor, a forward pass returns an
    output row and a hidden row. *)
Lemma forward_one (r : RNN) (nc isz hs os : nat) keep (c x h : vec) :
  RNN_ok nc isz hs os r →
  length c = nc → length x = isz → length h = hs →
  ∃ o h', forward r keep [c] [x] [h] = Ret ([o], [h']) ∧
          length o = os ∧ length h' = hs.
Proof.
  intros (_ & Hi2h & Hi2o & Ho2o) Hc Hx Hh. unfold forward.
  change (cat1 [[c]; [x]; [h]]) with (Ret (A:=matrix) [c ++ x ++ h]).
  cbn [mbind res_bind].
  assert (Hin : length (c ++ x ++ h) = (nc + isz + hs)%nat).
  { rewrite !length_app. lia. }
  destruct (linear_one _ _ _ _ Hi2h Hin) as (h' & -> & Hh').
  destruct (linear_one _ _ _ _ Hi2o Hin) as (o1 & -> & Ho1).
  cbn [mbind res_bind].
  change (cat1 [[h']; [o1]]) with (Ret (A:=matrix) [h' ++ o1]).
  cbn [mbind res_bind].
  assert (Hin2 : length (h' ++ o1) = (hs + os)%nat).
  { rewrite length_app. lia. }
  destruct (linear_one _ _ _ _ Ho2o Hin2) as (o2 & -> & Ho2).
  cbn [mbind res_bind].
  destruct (dropout_one dropout_p keep o2) as (o3 & -> & Ho3).
  destruct (LogSoftmax_one o3) as (o4 & -> & Ho4).
  exists o4, h'. split; [done|]. split; [lia|done].
Qed.

End forward.

Lemma argmax_from_bound (xs : vec) (i best_i : nat) (best : Qc) :
  (best_i < i)%nat → (snd (argmax_from i best_i best xs) < i + length xs)%nat.
Proof.
  revert i best_i best. induction xs as [|x xs IH]; intros i bi b Hb.
  - simpl. lia.
  - cbn [argmax_from length]. destruct (b ?= x)%Qc.
    + specialize (IH (S i) bi b). lia.
    + specialize (IH (S i) i x). lia.
    + specialize (IH (S i) bi b). lia.
Qed.

Lemma topk1_one (row : vec) :
  row ≠ [] →
  ∃ v k, topk1 [row] = Ret ([[v]], [[k]]) ∧ (k < length row)%nat.
Proof.
  intros Hne. destruct row as [|x xs]; [done|].
  unfold topk1. cbn [mapM topk1_row].
  pose proof (argmax_from_bound xs 1 0 x) as Hb.
  destruct (argmax_from 1 0 x xs) as [v k]. cbn [mbind res_bind mret res_ret map fst snd].
  exists v, k. split; [done|]. simpl in *. lia.
Qed.

Lemma NLLLoss_one (row : vec) (t : Z) :
  0 ≤ t < Z.of_nat (length row) → ∃ l, NLLLoss [row] [t] = Ret l.
Proof.
  intros Ht. unfold NLLLoss. cbn [nll_rows]. unfold nll_row.
  destruct (Z.leb_spec 0 t); [|lia].
  destruct (Z.ltb_spec t (Z.of_nat (length row))); [|lia].
  cbn [andb].
  destruct (lookup_lt_is_Some_2 row (Z.to_nat t)) as [v ->]; [lia|].
  cbn [mbind res_bind]. eauto.
Qed.

(** ** In-place addition and shapes *)

Lemma axpy_vec_ok (a : Qc) (p g : vec) :
  length g = length p →
  axpy_vec a p g = Ret (zip_with (fun x y => (x + a * y)%Qc) p g).
Proof.
  revert g. induction p as [|x p IH]; intros [|y g] Hlen; try done.
  cbn [axpy_vec]. rewrite IH by (simpl in Hlen; lia). reflexivity.
Qed.

Lemma axpy_mat_ok (a : Qc) (p g : matrix) :
  Forall2 (fun r r' => length r = length r') g p →
  axpy_mat a p g = Ret (zip_with (zip_with (fun x y => (x + a * y)%Qc)) p g).
Proof.
  intros Hs. induction Hs as [|y x g p Hlen _ IH]; [done|].
  cbn [axpy_mat]. rewrite axpy_vec_ok by done. cbn [mbind res_bind].
  rewrite IH. reflexivity.
Qed.

Lemma add_ok (a : Qc) (p g : tensor) :
  same_shape g p →
  add_ a p g = Ret (tensor_zip (fun x y => (x + a * y)%Qc) p g).
Proof.
  destruct p as [v|m], g as [w|n]; try done; intros Hs; cbn [add_ tensor_zip].
  - by rewrite axpy_vec_ok.
  - by rewrite axpy_mat_ok.
Qed.

Lemma same_shape_refl (t : tensor) : same_shape t t.
Proof.
  destruct t as [v|m]; [done|]. simpl. induction m; by constructor.
Qed.

Lemma same_shape_sym (t u : tensor) : same_shape t u → same_shape u t.
Proof.
  destruct t, u; simpl; try done.
  intros Hs. induction Hs; by constructor.
Qed.

Lemma same_shape_trans (t u v : tensor) :
  same_shape t u → same_shape u v → same_shape t v.
Proof.
  destruct t as [a|a], u as [b|b], v as [m1|m1]; simpl; try done; try congruence.
  intros H1 H2. revert H2. revert m1.
  induction H1 as [|x y l k Hxy _ IH]; intros m1 H2; inversion H2; subst;
    constructor; [congruence | by apply IH].
Qed.

Lemma same_shape_zeros_like (t : tensor) : same_shape (zeros_like t) t.
Proof.
  destruct t as [v|m]; simpl; [by rewrite length_map|].
  induction m as [|r m IH]; constructor; [by rewrite length_map | done].
Qed.

Lemma zip_with_same_length {A} (f : A → A → A) (p g : list A) :
  length g = length p → length (zip_with f p g) = length p.
Proof. intros Hlen. rewrite length_zip_with. lia. Qed.

Lemma same_shape_zip (f : Qc → Qc → Qc) (p g : tensor) :
  same_shape g p → same_shape (tensor_zip f p g) p.
Proof.
  destruct p as [v|m], g as [w|n]; try done; simpl.
  - apply zip_with_same_length.
  - intros Hs. induction Hs as [|y x n m Hlen _ IH]; constructor; [|done].
    by apply zip_with_same_length.
Qed.

(** Adding a gradient to a zeroed gradient leaves the gradient. *)
Lemma zip_zero_vec (old d : vec) :
  length d = length old →
  zip_with (fun x y => (x + 1 * y)%Qc) (map (fun _ => 0%Qc) old) d = d.
Proof.
  revert d. induction old as [|x old IH]; intros [|y d] Hlen; try done.
  cbn [map zip_with]. rewrite IH by (simpl in Hlen; lia). f_equal. ring.
Qed.

Lemma tensor_zip_zeros (old d : tensor) :
  same_shape d old →
  tensor_zip (fun x y => (x + 1 * y)%Qc) (zeros_like old) d = d.
Proof.
  destruct old as [v|m], d as [w|n]; try done; simpl; intros Hs; f_equal.
  - by apply zip_zero_vec.
  - induction Hs as [|y x n m Hlen _ IH]; [done|].
    cbn [map zip_with]. by rewrite IH, zip_zero_vec.
Qed.

Lemma tensor_zip_ext (f f' : Qc → Qc → Qc) (p g : tensor) :
  (∀ x y, f x y = f' x y) → tensor_zip f p g = tensor_zip f' p g.
Proof.
  intros Hf. destruct p as [v|m], g as [w|n]; try done; simpl; f_equal.
  - revert w. induction v as [|x v IH]; intros [|y w]; try done.
    simpl. by rewrite Hf, IH.
  - revert n. induction m as [|r m IH]; intros [|r' n]; try done.
    simpl. rewrite IH. f_equal. clear IH.
    revert r'. induction r as [|x r IH]; intros [|y r']; try done.
    simpl. by rewrite Hf, IH.
Qed.

End TorchFacts.

(* ===================================================================== *)
(** * Properties: [train]                                                 *)
(* ===================================================================== *)

Module TrainFacts.
Import Names TorchFacts.

(** ** Running a computation of the kernel *)

Lemma M_bind_run {A B} (m : M A) (f : A → M B) (w w1 : world) (a : A) :
  m w = Ret (a, w1) → (m ≫= f) w = f a w1.
Proof. intros Hm. unfold mbind, M_bind. by rewrite Hm. Qed.

Lemma M_bind_raise {A B} (m : M A) (f : A → M B) (w : world) e :
  m w = Raise e → (m ≫= f) w = Raise e.
Proof. intros Hm. unfold mbind, M_bind. by rewrite Hm. Qed.

Lemma M_bind_inv {A B} (m : M A) (f : A → M B) (w w' : world) (b : B) :
  (m ≫= f) w = Ret (b, w') → ∃ a w1, m w = Ret (a, w1) ∧ f a w1 = Ret (b, w').
Proof.
  unfold mbind, M_bind. destruct (m w) as [[a w1]|e]; [eauto | done].
Qed.

Lemma lift_run {A} (r : res A) (a : A) (w : world) :
  r = Ret a → lift r w = Ret (a, w).
Proof. by intros ->. Qed.

Lemma after_forward_0 (w : world) : after_forward 0 w = w.
Proof. destruct w. unfold after_forward. simpl. by rewrite app_nil_r. Qed.

Lemma after_forward_S (n : nat) (w : world) :
  after_forward n (after_forward 1 w) = after_forward (S n) w.
Proof.
  unfold after_forward. simpl. rewrite <- app_assoc. f_equal. lia.
Qed.

Section train.
Context {T : Torch}.

Lemma call_rnn_run (c x h : matrix) (w : world) o :
  forward (rnn w) (drop_tape w (drop_pos w)) c x h = Ret o →
  call_rnn c x h w = Ret (o, after_forward 1 w).
Proof. intros Hf. unfold call_rnn. by rewrite Hf. Qed.

(** ** The loop over the timesteps *)

Lemma timesteps_cons r tape c pos x input t target h steps :
  timesteps r tape c pos (x :: input) (t :: target) h = Ret steps →
  ∃ o l rest,
    forward r (tape pos) c x h = Ret o ∧
    NLLLoss (fst o) [t] = Ret l ∧
    timesteps r tape c (S pos) input target (snd o) = Ret rest ∧
    steps = (fst o, l) :: rest.
Proof.
  cbn [timesteps]. intros Hs.
  apply bind_Ret in Hs as (o & Ho & Hs).
  apply bind_Ret in Hs as (l & Hl & Hs).
  apply bind_Ret in Hs as (rest & Hrest & Hs).
  injection Hs as <-. eauto 10.
Qed.

Lemma train_loop_run (c : matrix) (input : tensor3) (target : list Z) :
  length target = length input →
  ∀ (n a : nat) (o : option matrix) (h : matrix) (loss : pyloss) (w : world)
    (steps : list (matrix * Qc)),
    (a + n)%nat = length input →
    timesteps (rnn w) (drop_tape w) c (drop_pos w)
              (drop a input) (drop a target) h = Ret steps →
    ∃ h',
      forM (train_body c input (unsqueeze_last target)) (seq a n) (o, h, loss) w
      = Ret ((match last (map fst steps) with Some x => Some x | None => o end,
              h', foldl loss_add loss (map snd steps)),
             after_forward n w) ∧
      length steps = n.
Proof.
  intros Hlen n. induction n as [|n IH]; intros a o h loss w steps Ha Hsteps.
  - rewrite drop_ge in Hsteps by lia. injection Hsteps as <-.
    exists h. by rewrite after_forward_0.
  - destruct (lookup_lt_is_Some_2 input a) as [x Hx]; [lia|].
    destruct (lookup_lt_is_Some_2 target a) as [t Ht]; [lia|].
    rewrite (drop_S _ _ _ Hx), (drop_S _ _ _ Ht) in Hsteps.
    apply timesteps_cons in Hsteps as (o1 & l & rest & Hfwd & Hl & Hrest & ->).
    assert (Ht' : unsqueeze_last target !! a = Some [t]).
    { unfold unsqueeze_last. by rewrite list_lookup_fmap, Ht. }
    assert (Hbody : train_body c input (unsqueeze_last target) (o, h, loss) a w
                    = Ret ((Some (fst o1), snd o1, loss_add loss l),
                           after_forward 1 w)).
    { unfold train_body.
      rewrite (M_bind_run _ _ _ _ _ (lift_run _ _ w (getitem_nat _ _ _ Hx))).
      rewrite (M_bind_run _ _ _ _ _ (call_rnn_run _ _ _ _ _ Hfwd)).
      destruct o1 as [output hidden'].
      rewrite (M_bind_run _ _ _ _ _ (lift_run _ _ _ (getitem_nat _ _ _ Ht'))).
      rewrite (M_bind_run _ _ _ _ _ (lift_run _ _ _ Hl)). reflexivity. }
    cbn [seq forM]. rewrite (M_bind_run _ _ _ _ _ Hbody).
    destruct (IH (S a) (Some (fst o1)) (snd o1) (loss_add loss l)
                 (after_forward 1 w) rest) as (h' & Hrun & Hn); [lia|exact Hrest|].
    exists h'. rewrite Hrun, after_forward_S. split; [|simpl; lia].
    do 3 f_equal. cbn [map]. destruct rest as [|s rest]; [done|].
    cbn [map]. rewrite last_cons_cons.
    destruct (last (fst s :: map fst rest)) eqn:Hlast; [done|].
    by apply last_None in Hlast.
Qed.

(** On an example of the right shapes every timestep succeeds. *)
Lemma timesteps_total (r : RNN) tape (c : matrix) (nc hs : nat)
    (input : tensor3) :
  RNN_ok nc n_letters hs n_letters r →
  has_shape2 1 nc c →
  Forall (has_shape2 1 n_letters) input →
  ∀ (target : list Z) (pos : nat) (h : matrix),
    length target = length input →
    Forall (fun t => 0 ≤ t < Z.of_nat n_letters) target →
    has_shape2 1 hs h →
    ∃ steps, timesteps r tape c pos input target h = Ret steps ∧
             length steps = length input.
Proof.
  intros Hr (c0 & -> & Hc)%has_shape2_one Hin.
  induction Hin as [|x input (x0 & -> & Hx)%has_shape2_one _ IH];
    intros target pos h Hlen Ht (h0 & -> & Hh)%has_shape2_one.
  - exists []. by destruct target.
  - destruct target as [|t target]; [done|].
    apply Forall_cons in Ht as [Ht Htarget].
    destruct (forward_one r _ _ _ _ (tape pos) c0 x0 h0 Hr Hc Hx Hh)
      as (o & h' & Hfwd & Ho & Hh').
    destruct (NLLLoss_one o t) as [l Hl]; [by rewrite Ho|].
    destruct (IH target (S pos) [h']) as (rest & Hrest & Hn);
      [simpl in Hlen; lia | done | by apply has_shape2_one; eauto |].
    exists (([o], l) :: rest). cbn [timesteps]. rewrite Hfwd.
    cbn [mbind res_bind fst snd]. rewrite Hl. cbn [mbind res_bind].
    rewrite Hrest. split; [done | simpl; lia].
Qed.

(** ** The backward pass and the parameter step *)

Lemma get_set_param_eq (p : pname) (t : tensor) (r : RNN) :
  same_shape t (get_param p r) → get_param p (set_param p t r) = t.
Proof. destruct p, t; simpl; done. Qed.

Lemma get_set_param_ne (p q : pname) (t : tensor) (r : RNN) :
  q ≠ p → get_param q (set_param p t r) = get_param q r.
Proof. destruct p, q, t; simpl; done. Qed.

Lemma same_dims_set_param (p : pname) (t : tensor) (r : RNN) :
  same_dims (set_param p t r) r.
Proof. destruct p, t; repeat split. Qed.

Lemma same_dims_trans (r1 r2 r3 : RNN) :
  same_dims r1 r2 → same_dims r2 r3 → same_dims r1 r3.
Proof. unfold same_dims. intuition congruence. Qed.

Lemma NoDup_parameters : NoDup parameters.
Proof. apply (bool_decide_unpack _). vm_compute. exact I. Qed.

Lemma elem_of_parameters (p : pname) : p ∈ parameters.
Proof. destruct p; apply (bool_decide_unpack _); vm_compute; exact I. Qed.

Lemma grads_loop (d : pname → tensor) (ps : list pname)
    (gr0 : pname → option tensor) :
  NoDup ps →
  (∀ p old, p ∈ ps → gr0 p = Some old → same_shape (d p) old) →
  ∃ gr',
    for_each
      (fun (gr : pname → option tensor) p =>
         t ← match gr p with
             | None => Ret (d p)
             | Some old => add_ 1%Qc old (d p)
             end;
         Ret (fun q => if decide (q = p) then Some t else gr q))
      ps gr0 = Ret gr' ∧
    ∀ q, gr' q =
         if decide (q ∈ ps)
         then Some (match gr0 q with
                    | None => d q
                    | Some old => tensor_zip (fun x y => (x + 1 * y)%Qc) old (d q)
                    end)
         else gr0 q.
Proof.
  revert gr0. induction ps as [|p ps IH]; intros gr0 Hnd Hshape.
  - exists gr0. split; [done|]. intros q. by rewrite decide_False by apply not_elem_of_nil.
  - apply NoDup_cons in Hnd as [Hp Hnd]. cbn [for_each].
    set (t := match gr0 p with
              | None => d p
              | Some old => tensor_zip (fun x y => (x + 1 * y)%Qc) old (d p)
              end).
    assert (Ht : match gr0 p with
                 | None => Ret (d p)
                 | Some old => add_ 1%Qc old (d p)
                 end = Ret t).
    { subst t. destruct (gr0 p) as [old|] eqn:Hold; [|done].
      apply add_ok. apply (Hshape p old); [left | done]. }
    rewrite Ht. cbn [mbind res_bind].
    destruct (IH (fun q => if decide (q = p) then Some t else gr0 q) Hnd)
      as (gr' & Hrun & Hgr').
    { intros q old Hq. rewrite decide_False by (intros ->; done).
      apply Hshape. by right. }
    exists gr'. split; [done|]. intros q. rewrite Hgr'.
    destruct (decide (q = p)) as [->|Hne].
    + rewrite decide_False by done. rewrite decide_True by left. done.
    + destruct (decide (q ∈ ps)) as [Hin|Hnin].
      * rewrite decide_True by (by right). done.
      * rewrite decide_False; [done|]. rewrite not_elem_of_cons. done.
Qed.

Lemma backward_run (v : Qc) (loss_fn : RNN → Qc) (w : world) :
  (∀ p old, grad w p = Some old →
            same_shape (autograd loss_fn (rnn w) p) old) →
  ∃ gr',
    backward (LossTensor v) loss_fn w
    = Ret (tt, World (rnn w) gr' (rand_tape w) (rand_pos w)
                     (drop_tape w) (drop_pos w) (trace w ++ [EvBackward])) ∧
    ∀ q, gr' q =
         Some (match grad w q with
               | None => autograd loss_fn (rnn w) q
               | Some old => tensor_zip (fun x y => (x + 1 * y)%Qc) old
                                        (autograd loss_fn (rnn w) q)
               end).
Proof.
  intros Hshape. unfold backward.
  destruct (grads_loop (autograd loss_fn (rnn w)) parameters (grad w)
              NoDup_parameters) as (gr' & Hrun & Hgr').
  { intros p old _. apply Hshape. }
  exists gr'. rewrite Hrun. split; [done|].
  intros q. rewrite Hgr'. by rewrite decide_True by apply elem_of_parameters.
Qed.

Lemma update_run (p : pname) (w : world) (gp : tensor) :
  grad w p = Some gp →
  same_shape gp (get_param p (rnn w)) →
  update p w
  = Ret (tt, World (set_param p (tensor_zip (fun x y => (x + - learning_rate * y)%Qc)
                                            (get_param p (rnn w)) gp) (rnn w))
                   (grad w) (rand_tape w) (rand_pos w)
                   (drop_tape w) (drop_pos w) (trace w ++ [EvUpdate p])).
Proof.
  intros Hg Hs. unfold update. rewrite Hg, (add_ok _ _ _ Hs). reflexivity.
Qed.

Lemma updates_run (ps : list pname) (w : world) :
  NoDup ps →
  (∀ p, p ∈ ps → ∃ gp, grad w p = Some gp ∧ same_shape gp (get_param p (rnn w))) →
  ∃ r',
    forM (fun _ p => update p) ps tt w
    = Ret (tt, World r' (grad w) (rand_tape w) (rand_pos w)
                     (drop_tape w) (drop_pos w) (trace w ++ map EvUpdate ps)) ∧
    same_dims r' (rnn w) ∧
    (∀ p gp, p ∈ ps → grad w p = Some gp →
       get_param p r' = tensor_zip (fun x y => (x + - learning_rate * y)%Qc)
                                   (get_param p (rnn w)) gp) ∧
    (∀ p, p ∉ ps → get_param p r' = get_param p (rnn w)).
Proof.
  revert w. induction ps as [|p ps IH]; intros w Hnd Hgr.
  - exists (rnn w). cbn [forM map]. rewrite app_nil_r. destruct w.
    split; [done|]. split; [done|]. split; [|done].
    intros p gp Hp. by apply elem_of_nil in Hp.
  - apply NoDup_cons in Hnd as [Hp Hnd].
    destruct (Hgr p) as (gp & Hgp & Hsp); [left|].
    pose proof (update_run p w gp Hgp Hsp) as Hup.
    set (t := tensor_zip (fun x y => (x + - learning_rate * y)%Qc)
                         (get_param p (rnn w)) gp) in *.
    set (w1 := World (set_param p t (rnn w)) (grad w) (rand_tape w) (rand_pos w)
                     (drop_tape w) (drop_pos w) (trace w ++ [EvUpdate p])) in *.
    destruct (IH w1 Hnd) as (r' & Hrun & Hdims & Hin & Hout).
    { intros q Hq. destruct (Hgr q) as (gq & Hgq & Hsq); [by right|].
      exists gq. split; [done|]. cbn [rnn w1].
      rewrite get_set_param_ne by (intros ->; done). done. }
    exists r'. cbn [forM]. rewrite (M_bind_run _ _ _ _ _ Hup), Hrun.
    cbn [rnn grad rand_tape rand_pos drop_tape drop_pos trace w1] in *.
    split; [by rewrite <- app_assoc|].
    split; [eapply same_dims_trans; [exact Hdims | apply same_dims_set_param]|].
    split.
    + intros q gq [->|Hq]%elem_of_cons Hgq.
      * rewrite (Hout p Hp), get_set_param_eq by (by apply same_shape_zip).
        assert (gq = gp) as -> by congruence. done.
      * rewrite (Hin q gq Hq Hgq).
        by rewrite get_set_param_ne by (intros ->; done).
    + intros q [Hne Hq]%not_elem_of_cons.
      by rewrite (Hout q Hq), get_set_param_ne.
Qed.

(** ** Shapes after the step *)

Lemma has_shape2_same_shape (r c : nat) (m m' : matrix) :
  has_shape2 r c m → same_shape (Mat m') (Mat m) → has_shape2 r c m'.
Proof.
  intros [Hlen Hrows] Hs. simpl in Hs. split.
  - by rewrite (Forall2_length _ _ _ Hs).
  - clear Hlen. induction Hs as [|x y m' m Hxy _ IH]; [constructor|].
    apply Forall_cons in Hrows as [Hy Hrows].
    constructor; [congruence | by apply IH].
Qed.

Lemma Linear_ok_same_shape (i o : nat) (l l' : Linear) :
  Linear_ok i o l →
  in_features l' = in_features l → out_features l' = out_features l →
  same_shape (Mat (weight l')) (Mat (weight l)) →
  same_shape (Vec (bias l')) (Vec (bias l)) →
  Linear_ok i o l'.
Proof.
  intros (Hi & Ho & Hw & Hb) Hi' Ho' Hsw Hsb. simpl in Hsb.
  repeat split; try congruence; by apply (has_shape2_same_shape _ _ _ _ Hw).
Qed.

Lemma RNN_ok_same_shape (nc isz hs os : nat) (r r' : RNN) :
  RNN_ok nc isz hs os r →
  same_dims r' r →
  (∀ p, same_shape (get_param p r') (get_param p r)) →
  RNN_ok nc isz hs os r'.
Proof.
  intros (Hh & H1 & H2 & H3) (D0 & D1 & D2 & D3 & D4 & D5 & D6) Hs.
  split; [congruence|]. split; [|split].
  - apply (Linear_ok_same_shape _ _ _ _ H1 D1 D2 (Hs i2h_weight) (Hs i2h_bias)).
  - apply (Linear_ok_same_shape _ _ _ _ H2 D3 D4 (Hs i2o_weight) (Hs i2o_bias)).
  - apply (Linear_ok_same_shape _ _ _ _ H3 D5 D6 (Hs o2o_weight) (Hs o2o_bias)).
Qed.

(** ** The loss accumulated by [loss += l] *)

Lemma foldl_loss_add_tensor (v : Qc) (ls : list Qc) :
  foldl loss_add (LossTensor v) ls = LossTensor (v + Qc_sum ls)%Qc.
Proof.
  revert v. induction ls as [|l ls IH]; intros v.
  - simpl. f_equal. unfold Qc_sum. simpl. ring.
  - cbn [foldl loss_add]. rewrite IH. f_equal. unfold Qc_sum. simpl. ring.
Qed.

Lemma foldl_loss_add_int (ls : list Qc) :
  ls ≠ [] → foldl loss_add (PyInt 0) ls = LossTensor (Qc_sum ls).
Proof.
  destruct ls as [|l ls]; [done|]. intros _.
  cbn [foldl loss_add]. rewrite foldl_loss_add_tensor. f_equal.
  change (Q2Qc (inject_Z 0)) with 0%Qc. unfold Qc_sum. simpl. ring.
Qed.

(** ** One call of [train] *)

Ltac mstep H := rewrite (M_bind_run _ _ _ _ _ H); cbv beta zeta match.

Section one_call.
Variable g : globals.
Variables (w : world) (c : matrix) (input : tensor3) (target : list Z).
Hypothesis torch_ok : Torch_ok.
Hypothesis w_ok : world_ok g w.
Hypothesis ex_ok : example_ok g c input target.
Hypothesis nonempty : input ≠ [].

(** The loop of this call, the world the autograd graph starts in, and the
    loss as a function of the parameters. *)
Let loop : M (option matrix * matrix * pyloss) :=
  forM (train_body c input (unsqueeze_last target))
       (seq 0 (length input)) (None, zeros2 1 (hidden_size (rnn w)), PyInt 0).
Let graph : world := set_grad (fun p => zeros_like <$> grad w p) w.
Let loss_fn : RNN → Qc := loss_of loop graph.

Lemma loss_fn_timesteps (r : RNN) (steps : list (matrix * Qc)) :
  timesteps r (drop_tape w) c (drop_pos w) input target
            (zeros2 1 (hidden_size (rnn w))) = Ret steps →
  loss_fn r = Qc_sum (map snd steps).
Proof using ex_ok nonempty.
  intros Hsteps. destruct ex_ok as (_ & _ & Hlen & _).
  destruct (train_loop_run c input target Hlen (length input) 0 None
              (zeros2 1 (hidden_size (rnn w))) (PyInt 0) (set_rnn r graph) steps)
    as (h' & Hrun & Hn); [done|exact Hsteps|].
  unfold loss_fn, loss_of, loop. rewrite Hrun.
  rewrite foldl_loss_add_int; [done|].
  destruct steps; [|done]. by destruct input.
Qed.

Lemma train_run :
  ∃ (steps : list (matrix * Qc)) (output : matrix) (r' : RNN)
    (gr' : pname → option tensor),
    timesteps (rnn w) (drop_tape w) c (drop_pos w) input target
              (zeros2 1 (hidden_size (rnn w))) = Ret steps ∧
    length steps = length input ∧
    last (map fst steps) = Some output ∧
    train c input target w
    = Ret ((output, (Qc_sum (map snd steps) / Qc_of_nat (length input))%Qc),
           World r' gr' (rand_tape w) (rand_pos w) (drop_tape w)
                 (length input + drop_pos w)
                 (trace w ++ replicate (length input) EvForward
                    ++ [EvBackward] ++ map EvUpdate parameters)) ∧
    same_dims r' (rnn w) ∧
    (∀ p, gr' p = Some (autograd loss_fn (rnn w) p)) ∧
    (∀ p, get_param p r'
          = sgd_step (get_param p (rnn w)) (autograd loss_fn (rnn w) p)).
Proof using torch_ok w_ok ex_ok nonempty.
  destruct w_ok as [Hrnn Hgrad].
  destruct ex_ok as (Hc & [_ Hin] & Hlen & Htarget).
  destruct (timesteps_total (rnn w) (drop_tape w) c _ _ input Hrnn Hc Hin
              target (drop_pos w) (zeros2 1 (hidden_size (rnn w))) Hlen Htarget)
    as (steps & Hsteps & Hn).
  { split; [done|]. repeat constructor. apply length_replicate. }
  assert (Hne : steps ≠ []) by (destruct steps; [by destruct input | done]).
  destruct (last (map fst steps)) as [output|] eqn:Hlast;
    [|apply last_None in Hlast; by destruct steps].
  destruct (train_loop_run c input target Hlen (length input) 0 None
              (zeros2 1 (hidden_size (rnn w))) (PyInt 0) graph steps)
    as (h' & Hrun & _); [done|exact Hsteps|].
  rewrite Hlast, foldl_loss_add_int in Hrun by (by destruct steps).
  fold loop in Hrun.
  (* the backward pass *)
  destruct (backward_run (Qc_sum (map snd steps)) loss_fn
              (after_forward (length input) graph)) as (gr' & Hback & Hgr').
  { intros p old. cbn [grad after_forward graph set_grad rnn].
    destruct (grad w p) as [old0|] eqn:Hold0; [|done]. intros [= <-].
    eapply same_shape_trans; [apply torch_ok|].
    eapply same_shape_trans; [apply same_shape_sym, (Hgrad _ _ Hold0)|].
    apply same_shape_sym, same_shape_zeros_like. }
  cbn [grad after_forward graph set_grad rnn rand_tape rand_pos drop_tape
       drop_pos trace] in Hback, Hgr'.
  assert (Hgr : ∀ p, gr' p = Some (autograd loss_fn (rnn w) p)).
  { intros p. rewrite Hgr'. destruct (grad w p) as [old0|] eqn:Hold0; [|done].
    cbn [fmap option_fmap option_map]. f_equal. apply tensor_zip_zeros.
    eapply same_shape_trans; [apply torch_ok|].
    apply same_shape_sym, (Hgrad _ _ Hold0). }
  (* the parameter step *)
  set (w3 := World (rnn w) gr' (rand_tape w) (rand_pos w) (drop_tape w)
                   (length input + drop_pos w)
                   ((trace w ++ replicate (length input) EvForward) ++ [EvBackward]))
    in *.
  destruct (updates_run parameters w3 NoDup_parameters) as (r' & Hup & Hdims & Hin' & _).
  { intros p _. exists (autograd loss_fn (rnn w) p). split; [apply Hgr|].
    apply torch_ok. }
  cbn [grad rnn rand_tape rand_pos drop_tape drop_pos trace w3] in Hup, Hdims, Hin'.
  exists steps, output, r', gr'.
  split; [done|]. split; [done|]. split; [done|]. split; [|split; [done|split; [done|]]].
  - unfold train, range. rewrite Nat.sub_0_r.
    assert (H0 : initHidden w = Ret (zeros2 1 (hidden_size (rnn w)), w)) by done.
    mstep H0.
    assert (H1 : zero_grad w = Ret (tt, graph)) by done.
    mstep H1.
    assert (H2 : get graph = Ret (graph, graph)) by done.
    mstep H2. fold loop. fold loss_fn.
    mstep Hrun. mstep Hback. fold w3.
    mstep Hup.
    rewrite (M_bind_run _ _ _ _ _ (lift_run _ _ _ eq_refl)). cbv beta.
    rewrite (M_bind_run _ _ _ _ _
               (lift_run (item (LossTensor (Qc_sum (map snd steps)))) _ _ eq_refl)).
    cbv beta. unfold mret, M_ret. rewrite <- !app_assoc. reflexivity.
  - intros p. rewrite (Hin' p _ (elem_of_parameters p) (Hgr p)).
    unfold sgd_step. apply tensor_zip_ext. intros x y. ring.
Qed.

End one_call.


End train.

(** ** The demo kernel *)

Lemma demo_torch_ok : Torch_ok (T := Demo.torch).
Proof. intros f r p. apply same_shape_zeros_like. Qed.

Lemma Linear_init_ok (i o : nat) w0 b0 : Linear_ok i o (Linear_init i o w0 b0).
Proof.
  repeat split; cbn [weight bias Linear_init].
  - by rewrite length_map, length_seq.
  - apply Forall_fmap, Forall_forall. intros r _. unfold compose. by rewrite length_map, length_seq.
  - by rewrite length_map, length_seq.
Qed.

(** The constructor gives the shapes of [RNN_ok]. *)
Lemma RNN_init_ok (nc isz hs os : nat) w0 :
  RNN_ok nc isz hs os (RNN_init nc isz hs os w0).
Proof. split; [done|]. repeat split; apply Linear_init_ok. Qed.

Lemma demo_world_ok b rand drop :
  world_ok Demo.loaded (Demo.world0 (Demo.rnn_with_bias b) rand drop).
Proof. split; [apply RNN_init_ok | done]. Qed.

(** The tensors of a pair of the data set form a well-shaped example. *)
Lemma example_ok_pair (g : globals) (category line : str) :
  category ∈ all_categories g →
  line ≠ [] →
  Forall (fun c => c ∈ all_letters) line →
  ∃ ct it tt,
    categoryTensor g category = Ret ct ∧
    inputTensor line = Ret it ∧
    targetTensor line = Ret tt ∧
    length it = length line ∧
    example_ok g ct it tt.
Proof.
  intros Hc Hne Hline.
  destruct (index_spec _ _ Hc) as (li & Hli & Hlook & _).
  assert (Hlt : (li < n_categories g)%nat) by (by eapply lookup_lt_Some).
  eexists _, _, _.
  split; [by apply EncodingFacts.categoryTensor_eq|].
  split; [apply EncodingFacts.inputTensor_eq|].
  split; [apply EncodingFacts.targetTensor_eq|].
  split; [by rewrite length_map|].
  destruct line as [|c0 line]; [done|]. change (drop 1 (c0 :: line)) with line.
  apply Forall_cons in Hline as [_ Hline].
  split; [|split; [|split]].
  - split; [done|]. repeat constructor. apply EncodingFacts.one_hot_length.
  - split; [done|]. apply Forall_fmap, Forall_forall. intros c _.
    apply EncodingFacts.enc_shape.
  - rewrite length_app, !length_map. simpl. lia.
  - apply Forall_app. split.
    + apply Forall_fmap. eapply Forall_impl; [exact Hline|].
      intros c Hin. unfold compose.
      destruct (EncodingFacts.letter_slot_elem_of c Hin) as [-> _].
      pose proof (EncodingFacts.letter_slot_lt c). lia.
    + repeat constructor; rewrite EncodingFacts.n_letters_eq; lia.
Qed.

Lemma demo_adam_example_ok :
  example_ok Demo.loaded Demo.adam_category Demo.adam_input Demo.adam_target.
Proof.
  destruct (example_ok_pair Demo.loaded (lit "Irish") (lit "Adam"))
    as (ct & it & tt & Hct & Hit & Htt & _ & Hok).
  - apply (bool_decide_unpack _). vm_compute. exact I.
  - discriminate.
  - apply (bool_decide_unpack _). vm_compute. exact I.
  - rewrite EncodingFacts.inputTensor_eq in Hit. injection Hit as <-.
    rewrite EncodingFacts.targetTensor_eq in Htt. injection Htt as <-.
    assert (Hc : categoryTensor Demo.loaded (lit "Irish") = Ret Demo.adam_category).
    { apply (EncodingFacts.categoryTensor_eq Demo.loaded (lit "Irish") 0).
      - vm_compute. reflexivity.
      - vm_compute. lia. }
    rewrite Hc in Hct. injection Hct as <-. exact Hok.
Qed.


End TrainFacts.

(* ===================================================================== *)
(** * Properties: [sample]                                                *)
(* ===================================================================== *)

Module SampleFacts.
Import Names TorchFacts TrainFacts EncodingFacts.

Ltac mstep H := rewrite (M_bind_run _ _ _ _ _ H); cbv beta zeta match.

Section sample.
Context {T : Torch}.
Variable g : globals.

Lemma letters_of_eos : letters_of [(n_letters - 1)%nat] = [].
Proof. unfold letters_of. cbn [omap list_omap]. by rewrite Nat.eqb_refl. Qed.

Lemma letters_of_cons (k : nat) (letter : N) (tops : list nat) :
  k ≠ (n_letters - 1)%nat → all_letters !! k = Some letter →
  letters_of (k :: tops) = letter :: letters_of tops.
Proof.
  intros Hk Hl. unfold letters_of. cbn [omap list_omap].
  destruct (Nat.eqb_spec k (n_letters - 1)); [done|]. by rewrite Hl.
Qed.

Lemma length_letters_of (tops : list nat) :
  (length (letters_of tops) ≤ length tops)%nat.
Proof.
  unfold letters_of. induction tops as [|k tops IH]; [done|].
  cbn [omap list_omap length].
  destruct (if (k =? n_letters - 1)%nat then None else all_letters !! k);
    cbn [length]; lia.
Qed.

(** The loop of [sample] runs the iterations [top_indices] lists and
    appends the letters of the indices that are not EOS. *)
Lemma sample_loop_run (c0 : vec) (idxs : list nat) :
  length c0 = n_categories g →
  ∀ (w : world) (x0 h0 : vec) (name : str),
    RNN_ok (n_categories g) n_letters (hidden_size (rnn w)) n_letters (rnn w) →
    length x0 = n_letters → length h0 = hidden_size (rnn w) →
    ∃ tops,
      top_indices (rnn w) (drop_tape w) [c0] (drop_pos w) (length idxs)
                  [x0] [h0] = Ret tops ∧
      sample_loop [c0] idxs [[x0]] [h0] name w
      = Ret (name ++ letters_of tops, after_forward (length tops) w) ∧
      (length tops ≤ length idxs)%nat ∧
      (∀ i k, tops !! i = Some k →
         (k = (n_letters - 1)%nat → length tops = S i) ∧
         (k ≠ (n_letters - 1)%nat → (S i < length idxs)%nat →
          (S i < length tops)%nat)).
Proof.
  intros Hc. induction idxs as [|i0 idxs IH]; intros w x0 h0 name Hr Hx Hh.
  - exists []. cbn [length top_indices sample_loop].
    rewrite after_forward_0, app_nil_r. repeat split; try done; lia.
  - destruct (forward_one (rnn w) _ _ _ _ (drop_tape w (drop_pos w)) c0 x0 h0
                Hr Hc Hx Hh) as (o & h' & Hfwd & Ho & Hh').
    destruct (topk1_one o) as (v & k & Htop & Hk).
    { intros ->. rewrite n_letters_eq in Ho. done. }
    rewrite Ho in Hk.
    cbn [length top_indices sample_loop].
    rewrite Hfwd. cbn [mbind res_bind fst snd]. rewrite Htop.
    cbn [mbind res_bind fst snd].
    rewrite (getitem_zero [[k]] [k] eq_refl). cbn [mbind res_bind].
    rewrite (getitem_zero [k] k eq_refl). cbn [mbind res_bind].
    rewrite (M_bind_run _ _ _ _ _ (lift_run _ _ w (getitem_zero [[x0]] [x0] eq_refl))).
    cbv beta.
    mstep (call_rnn_run _ _ _ _ _ Hfwd).
    rewrite (M_bind_run _ _ _ _ _ (lift_run _ _ _ Htop)). cbv beta zeta match.
    assert (Hk0 : (row ← getitem [[k]] 0; getitem row 0) = Ret k).
    { rewrite (getitem_zero [[k]] [k] eq_refl). cbn [mbind res_bind].
      apply (getitem_zero [k] k eq_refl). }
    rewrite (M_bind_run _ _ _ _ _ (lift_run _ _ _ Hk0)). cbv beta.
    destruct (Nat.eqb_spec k (n_letters - 1)) as [->|Hne].
    + exists [(n_letters - 1)%nat]. rewrite letters_of_eos, app_nil_r.
      split; [done|]. split; [done|]. split; [simpl; lia|].
      intros i k [-> <-]%list_lookup_singleton_Some. split; [done|]. done.
    + destruct (lookup_lt_is_Some_2 all_letters k) as [letter Hletter].
      { rewrite length_all_letters. rewrite n_letters_eq in Hk, Hne. lia. }
      rewrite (getitem_nat _ _ _ Hletter). cbn [mbind res_bind].
      rewrite (M_bind_run _ _ _ _ _ (lift_run (Ret letter) _ _ eq_refl)).
      cbv beta zeta.
      rewrite (M_bind_run _ _ _ _ _ (lift_run _ _ _ (inputTensor_eq [letter]))).
      cbv beta. cbn [map]. unfold enc at 2.
      destruct (IH (after_forward 1 w) (one_hot n_letters (letter_slot letter)) h'
                   (name ++ [letter])) as (tops & Htops & Hrun & Hlen & Hstop);
        [exact Hr | apply one_hot_length | exact Hh' |].
      cbn [rnn drop_tape drop_pos after_forward] in Htops.
      change (1 + drop_pos w)%nat with (S (drop_pos w)) in Htops.
      exists (k :: tops). unfold enc. rewrite Htops. cbn [mbind res_bind].
      rewrite Hrun, after_forward_S, (letters_of_cons k letter) by done.
      rewrite <- app_assoc. split; [done|]. split; [done|].
      split; [simpl; lia|].
      intros i k' Hi. destruct i as [|i].
      * injection Hi as <-. split; [done|]. intros _ Hlt. simpl.
        (* one more iteration was run *)
        destruct idxs as [|i1 idxs]; [simpl in Hlt; lia|]. clear Hlt.
        destruct tops; [|simpl; lia].
        cbn [length top_indices] in Htops.
        apply bind_Ret in Htops as (o' & _ & Htops).
        apply bind_Ret in Htops as (t' & _ & Htops).
        apply bind_Ret in Htops as (k'' & _ & Htops).
        destruct (k'' =? n_letters - 1)%nat; [done|].
        apply bind_Ret in Htops as (l' & _ & Htops).
        apply bind_Ret in Htops as (r' & _ & Htops). done.
      * destruct (Hstop i k' Hi) as [H1 H2]. split.
        -- intros Hk'. simpl. by rewrite (H1 Hk').
        -- intros Hk' Hlt. simpl in *. specialize (H2 Hk'). lia.
Qed.


End sample.


End SampleFacts.

(* ===================================================================== *)
(** * Properties: the training loops                                      *)
(* ===================================================================== *)

Module LoopFacts.
Import Names TorchFacts TrainFacts EncodingFacts.

Ltac mstep H := rewrite (M_bind_run _ _ _ _ _ H); cbv beta zeta match.

(** ** Drawing a pair *)

Lemma randomChoice_run {A} (l : list A) (w : world) (x : A) :
  l !! (rand_tape w (rand_pos w) mod length l)%nat = Some x →
  randomChoice l w
  = Ret (x, World (rnn w) (grad w) (rand_tape w) (S (rand_pos w))
                  (drop_tape w) (drop_pos w) (trace w)).
Proof.
  intros Hx. pose proof (lookup_lt_Some _ _ _ Hx) as Hlt.
  unfold randomChoice.
  assert (Hr : randint 0 (Z.of_nat (length l) - 1) w
               = Ret (Z.of_nat (rand_tape w (rand_pos w) mod length l),
                      World (rnn w) (grad w) (rand_tape w) (S (rand_pos w))
                            (drop_tape w) (drop_pos w) (trace w))).
  { unfold randint.
    destruct (Z.ltb_spec (Z.of_nat (length l) - 1) 0); [lia|].
    rewrite Z.add_0_l.
    replace (Z.of_nat (length l) - 1 - 0 + 1) with (Z.of_nat (length l)) by lia.
    by rewrite <- Nat2Z.inj_mod. }
  mstep Hr. apply lift_run. by apply getitem_nat.
Qed.

Section pairs.
Variable g : globals.

Lemma pick_Some (tape : nat → nat) (pos : nat) (category line : str) :
  pick g tape pos = Some (category, line) →
  ∃ lines,
    all_categories g !! (tape pos mod n_categories g)%nat = Some category ∧
    category_lines g !! category = Some lines ∧
    lines !! (tape (S pos) mod length lines)%nat = Some line.
Proof.
  unfold pick. intros Hp.
  destruct (all_categories g !! _) as [c|] eqn:Hc; [|done]. cbn in Hp.
  destruct (category_lines g !! c) as [lines|] eqn:Hl; [|done]. cbn in Hp.
  destruct (lines !! _) as [l|] eqn:Hline; [|done]. cbn in Hp.
  injection Hp as -> ->. eauto.
Qed.

Lemma pick_in_dataset (tape : nat → nat) (pos : nat) (p : str * str) :
  pick g tape pos = Some p → p ∈ name_dataset g.
Proof.
  destruct p as [category line].
  intros (lines & Hc & Hl & Hline)%pick_Some.
  unfold name_dataset. apply list_elem_of_In, in_flat_map.
  exists category. split; [eapply list_elem_of_In, list_elem_of_lookup_2, Hc|].
  rewrite Hl. apply list_elem_of_In, list_elem_of_fmap.
  exists line. split; [done|]. by eapply list_elem_of_lookup_2.
Qed.

(** On a data set [train] can run on, a pair is always drawn. *)
Lemma pick_total (tape : nat → nat) (pos : nat) :
  dataset_ok g →
  ∃ category line,
    pick g tape pos = Some (category, line) ∧
    category ∈ all_categories g ∧
    line ≠ [] ∧ Forall (fun c => c ∈ all_letters) line.
Proof.
  intros [Hne Hcats].
  destruct (lookup_lt_is_Some_2 (all_categories g)
              (tape pos mod n_categories g)%nat) as [category Hc].
  { apply Nat.mod_upper_bound. unfold n_categories.
    destruct (all_categories g); [done | simpl; lia]. }
  pose proof (list_elem_of_lookup_2 _ _ _ Hc) as Hin.
  destruct (Hcats category Hin) as (lines & Hl & Hlne & Hlines).
  destruct (lookup_lt_is_Some_2 lines (tape (S pos) mod length lines)%nat)
    as [line Hline].
  { apply Nat.mod_upper_bound. destruct lines; [done | simpl; lia]. }
  destruct (Hlines line (list_elem_of_lookup_2 _ _ _ Hline)) as [Hline1 Hline2].
  exists category, line. split; [|done].
  unfold pick. rewrite Hc. cbn. rewrite Hl. cbn. by rewrite Hline.
Qed.

Lemma randomTrainingPair_run (w : world) (category line : str) :
  pick g (rand_tape w) (rand_pos w) = Some (category, line) →
  randomTrainingPair g w
  = Ret ((category, line),
         World (rnn w) (grad w) (rand_tape w) (2 + rand_pos w)
               (drop_tape w) (drop_pos w) (trace w ++ [EvPair category line])).
Proof.
  intros (lines & Hc & Hl & Hline)%pick_Some. unfold randomTrainingPair.
  mstep (randomChoice_run _ w _ Hc).
  assert (Hd : dict_get (category_lines g) category = Ret lines).
  { unfold dict_get. by rewrite Hl. }
  rewrite (M_bind_run _ _ _ _ _ (lift_run _ _ _ Hd)). cbv beta.
  set (w1 := World (rnn w) (grad w) (rand_tape w) (S (rand_pos w))
                   (drop_tape w) (drop_pos w) (trace w)).
  mstep (randomChoice_run lines w1 line Hline). reflexivity.
Qed.

End pairs.

(** ** The loop of the name generator *)

Section names_loop.
Context {T : Torch}.
Variable g : globals.
Hypothesis torch_ok : Torch_ok.

Lemma train_keeps_world_ok (w : world) (r' : RNN) (gr' : pname → option tensor)
    (loss_fn : RNN → Qc) rt rp dt dp tr :
  world_ok g w →
  same_dims r' (rnn w) →
  (∀ p, gr' p = Some (autograd loss_fn (rnn w) p)) →
  (∀ p, get_param p r'
        = sgd_step (get_param p (rnn w)) (autograd loss_fn (rnn w) p)) →
  world_ok g (World r' gr' rt rp dt dp tr).
Proof using torch_ok.
  intros [Hrnn _] Hdims Hgr Hp.
  assert (Hs : ∀ p, same_shape (get_param p r') (get_param p (rnn w))).
  { intros p. rewrite Hp. apply same_shape_zip, torch_ok. }
  split; cbn [rnn grad].
  - pose proof Hdims as [Hh _]. rewrite Hh.
    by apply (RNN_ok_same_shape _ _ _ _ (rnn w)).
  - intros p gp. rewrite Hgr. intros [= <-].
    eapply same_shape_trans; [apply torch_ok|]. apply same_shape_sym, Hs.
Qed.

Lemma training_body_run (st : list Qc * Qc) (iter : nat) (w : world)
    (category line : str) :
  world_ok g w →
  pick g (rand_tape w) (rand_pos w) = Some (category, line) →
  category ∈ all_categories g →
  line ≠ [] → Forall (fun c => c ∈ all_letters) line →
  ∃ st' w',
    training_body g st iter w = Ret (st', w') ∧
    world_ok g w' ∧
    rand_tape w' = rand_tape w ∧
    rand_pos w' = (2 + rand_pos w)%nat ∧
    trace w' = trace w ++ example_events (category, line).
Proof using torch_ok.
  intros Hw Hpick Hcat Hne Hline.
  destruct (example_ok_pair g category line Hcat Hne Hline)
    as (ct & it & tt & Hct & Hit & Htt & Hlen & Hex).
  set (w1 := World (rnn w) (grad w) (rand_tape w) (2 + rand_pos w)
                   (drop_tape w) (drop_pos w) (trace w ++ [EvPair category line])).
  assert (Hw1 : world_ok g w1) by (destruct Hw; by split).
  assert (Hit_ne : it ≠ []) by (destruct it; [by destruct line | done]).
  destruct (train_run g w1 ct it tt torch_ok Hw1 Hex Hit_ne)
    as (steps & output & r' & gr' & _ & _ & _ & Htrain & Hdims & Hgr & Hp).
  assert (Hexample : randomTrainingExample g w = Ret ((ct, it, tt), w1)).
  { unfold randomTrainingExample.
    mstep (randomTrainingPair_run g w category line Hpick). fold w1.
    rewrite (M_bind_run _ _ _ _ _ (lift_run _ _ _ Hct)). cbv beta.
    rewrite (M_bind_run _ _ _ _ _ (lift_run _ _ _ Hit)). cbv beta.
    rewrite (M_bind_run _ _ _ _ _ (lift_run _ _ _ Htt)). cbv beta.
    reflexivity. }
  destruct st as [all_losses total_loss].
  unfold training_body. mstep Hexample. mstep Htrain.
  cbn [rnn grad rand_tape rand_pos drop_tape drop_pos trace w1] in *.
  match goal with
  | |- ∃ st' w', (if ?b then mret ?x else mret ?y) ?w2 = _ ∧ _ =>
      exists (if b then x else y), w2
  end.
  split; [by destruct (iter mod plot_every =? 0)%nat|].
  split; [by eapply (train_keeps_world_ok w1)|].
  split; [done|]. split; [done|]. cbn [trace].
  unfold example_events. cbn [fst snd]. rewrite Hlen, <- app_assoc. done.
Qed.

Lemma names_loop_run (n : nat) :
  dataset_ok g →
  ∀ (a : nat) (st : list Qc * Qc) (w : world),
    world_ok g w →
    ∃ st' w',
      forM (training_body g) (seq a n) st w = Ret (st', w') ∧
      world_ok g w' ∧
      trace w' = trace w
                   ++ flat_map example_events (picks g (rand_tape w) (rand_pos w) n) ∧
      length (picks g (rand_tape w) (rand_pos w) n) = n.
Proof using torch_ok.
  intros Hdata. induction n as [|n IH]; intros a st w Hw.
  - exists st, w. cbn [seq forM picks flat_map]. rewrite app_nil_r. done.
  - destruct (pick_total g (rand_tape w) (rand_pos w) Hdata)
      as (category & line & Hpick & Hcat & Hne & Hline).
    destruct (training_body_run st a w category line Hw Hpick Hcat Hne Hline)
      as (st1 & w1 & Hbody & Hw1 & Htape & Hpos & Htrace).
    destruct (IH (S a) st1 w1 Hw1) as (st' & w' & Hrun & Hw' & Htrace' & Hlen).
    exists st', w'. cbn [seq forM picks]. mstep Hbody. rewrite Hpick.
    rewrite Htape, Hpos in Htrace', Hlen.
    split; [exact Hrun|]. split; [exact Hw'|]. split.
    + rewrite Htrace', Htrace. cbn [flat_map]. by rewrite <- app_assoc.
    + cbn [length]. by rewrite Hlen.
Qed.

Lemma training_loop_run (n : nat) (w : world) :
  dataset_ok g → world_ok g w →
  ∃ losses w',
    training_loop g n w = Ret (losses, w') ∧
    world_ok g w' ∧
    trace w' = trace w
                 ++ flat_map example_events (picks g (rand_tape w) (rand_pos w) n) ∧
    length (picks g (rand_tape w) (rand_pos w) n) = n.
Proof using torch_ok.
  intros Hdata Hw.
  destruct (names_loop_run n Hdata 1 ([], 0%Qc) w Hw)
    as (st' & w' & Hrun & Hw' & Htrace & Hlen).
  exists (fst st'), w'. split; [|done].
  unfold training_loop, range. replace (n + 1 - 1)%nat with n by lia.
  mstep Hrun. reflexivity.
Qed.

End names_loop.

Lemma picks_in_dataset (g : globals) (tape : nat → nat) (pos n : nat) :
  Forall (fun p => p ∈ name_dataset g) (picks g tape pos n).
Proof.
  revert pos. induction n as [|n IH]; intros pos; [constructor|].
  cbn [picks]. destruct (pick g tape pos) as [p|] eqn:Hp; [|constructor].
  constructor; [by eapply pick_in_dataset | apply IH].
Qed.

Lemma pairs_of_trace_app (tr tr' : list event) :
  pairs_of_trace (tr ++ tr') = pairs_of_trace tr ++ pairs_of_trace tr'.
Proof. apply omap_app. Qed.

Lemma pairs_of_example_events (p : str * str) :
  pairs_of_trace (example_events p) = [p].
Proof.
  destruct p as [category line]. unfold example_events, pairs_of_trace.
  cbn [omap list_omap fst snd]. f_equal.
  rewrite !omap_app.
  assert (H1 : ∀ n, omap (fun e => match e with
                                   | EvPair c l => Some (c, l)
                                   | _ => None
                                   end) (replicate n EvForward) = []).
  { induction n as [|n IH]; [done|]. by cbn. }
  rewrite H1. reflexivity.
Qed.

Lemma pairs_of_events (ps : list (str * str)) :
  pairs_of_trace (flat_map example_events ps) = ps.
Proof.
  induction ps as [|p ps IH]; [done|].
  cbn [flat_map]. rewrite pairs_of_trace_app, pairs_of_example_events, IH. done.
Qed.

End LoopFacts.

(* ===================================================================== *)
(** * Properties: epochs                                                  *)
(* ===================================================================== *)

Module EpochFacts.
Import Names Tagger TaggerFacts TorchFacts TrainFacts LoopFacts.

(** ** The loop of the tagger *)

Lemma add_sent_binds {K : Type} `{Countable K} (ws : list K) (m : gmap K nat) (w : K) :
  w ∈ ws → is_Some (add_sent m ws !! w).
Proof.
  revert m. induction ws as [|x ws IH]; intros m Hw; [by apply elem_of_nil in Hw|].
  apply elem_of_cons in Hw as [->|Hw]; [|by apply IH].
  cbn [add_sent foldl].
  assert (Hx : is_Some (add_word m x !! x)).
  { unfold add_word. destruct (m !! x) eqn:Hm; [by rewrite Hm|].
    rewrite lookup_insert_eq. eauto. }
  destruct Hx as [k Hk]. exists k. by apply add_sent_keeps.
Qed.

(** Every word of the training data is a key of the finished
    [word_to_ix]. *)
Lemma add_data_binds {K : Type} `{Countable K} {G : Type}
    (data : list (list K * G)) (ex : list K * G) :
  ex ∈ data → Forall (fun w => is_Some (add_data ∅ data !! w)) (fst ex).
Proof.
  intros Hex. apply Forall_forall. intros w Hw.
  rewrite add_data_words. apply add_sent_binds.
  apply list_elem_of_In, in_concat. exists (fst ex).
  split; apply list_elem_of_In; [by apply list_elem_of_fmap_2 | done].
Qed.

Lemma prepare_sequence_total {K : Type} `{Countable K} (seq : list K)
    (to_ix : gmap K nat) :
  Forall (fun w => is_Some (to_ix !! w)) seq →
  ∃ idxs, prepare_sequence seq to_ix = Ret idxs.
Proof.
  induction 1 as [|w seq [k Hk] _ [idxs IH]]; [by exists []|].
  assert (Hd : dict_get to_ix w = Ret k) by (unfold dict_get; by rewrite Hk).
  exists (k :: idxs). unfold prepare_sequence in *. cbn [mapM].
  rewrite Hd. cbn [mbind res_bind]. by rewrite IH.
Qed.

Section tagger_loop.
Context {L : TaggerLib}.
Variables word_to_ix tag_to_ix : gmap str nat.

(** An example all of whose words and tags have an index. *)
Let covered (ex : list str * list str) : Prop :=
  Forall (fun w => is_Some (word_to_ix !! w)) (fst ex) ∧
  Forall (fun t => is_Some (tag_to_ix !! t)) (snd ex).

Lemma example_body_run (epoch : nat) (model : Model)
    (log : list (nat * (list str * list str))) (ex : list str * list str) :
  covered ex →
  ∃ model', example_body word_to_ix tag_to_ix epoch (model, log) ex
            = Ret (model', log ++ [(epoch, ex)]).
Proof.
  intros [Hwords Htags]. destruct ex as [sentence tags]. cbn [fst snd] in *.
  destruct (prepare_sequence_total _ _ Hwords) as [sentence_in Hs].
  destruct (prepare_sequence_total _ _ Htags) as [targets Ht].
  unfold example_body. rewrite Hs. cbn [mbind res_bind]. rewrite Ht.
  cbn [mbind res_bind].
  destruct (model_forward _ sentence_in) as [tag_scores model1]. eauto.
Qed.

Lemma epoch_body_run (epoch : nat) (data : list (list str * list str)) :
  Forall covered data →
  ∀ (model : Model) (log : list (nat * (list str * list str))),
    ∃ model', for_each (example_body word_to_ix tag_to_ix epoch) data (model, log)
              = Ret (model', log ++ map (pair epoch) data).
Proof.
  induction 1 as [|ex data Hex _ IH]; intros model log.
  - exists model. cbn [for_each map]. by rewrite app_nil_r.
  - destruct (example_body_run epoch model log ex Hex) as [model1 Hbody].
    destruct (IH model1 (log ++ [(epoch, ex)])) as [model' Hrun].
    exists model'. cbn [for_each map]. rewrite Hbody. cbn [mbind res_bind].
    rewrite Hrun. by rewrite <- app_assoc.
Qed.

Lemma tagger_loop_run (data : list (list str * list str)) (n : nat) :
  Forall covered data →
  ∀ (a : nat) (model : Model) (log : list (nat * (list str * list str))),
    ∃ model', for_each (epoch_body data word_to_ix tag_to_ix) (seq a n) (model, log)
              = Ret (model', log ++ flat_map (fun e => map (pair e) data) (seq a n)).
Proof.
  intros Hdata. induction n as [|n IH]; intros a model log.
  - exists model. cbn [seq for_each flat_map]. by rewrite app_nil_r.
  - destruct (epoch_body_run a data Hdata model log) as [model1 Hepoch].
    destruct (IH (S a) model1 (log ++ map (pair a) data)) as [model' Hrun].
    change (for_each (example_body word_to_ix tag_to_ix a) data (model, log))
      with (epoch_body data word_to_ix tag_to_ix (model, log) a) in Hepoch.
    exists model'. cbn [seq for_each flat_map].
    rewrite Hepoch. cbn [mbind res_bind]. rewrite Hrun. by rewrite <- app_assoc.
Qed.

End tagger_loop.

Lemma full_passes_epochs {A B} (data : list A) (epochs : list B) :
  full_passes data (map snd (flat_map (fun e => map (pair e) data) epochs)).
Proof.
  exists (map (fun _ => data) epochs). split.
  - induction epochs as [|e epochs IH]; [done|].
    cbn [flat_map map concat]. rewrite map_app, IH. f_equal.
    rewrite map_map. cbn [snd]. apply map_id.
  - apply Forall_fmap, Forall_forall. intros e _. unfold compose. reflexivity.
Qed.

(** Passes over a data set visit every example of it. *)
Lemma full_passes_visits {A} (data processed : list A) (x : A) :
  full_passes data processed → processed ≠ [] → x ∈ data → x ∈ processed.
Proof.
  intros (epochs & -> & Hperm) Hne Hx.
  induction Hperm as [|e epochs He _ IH]; [done|].
  cbn [concat]. apply elem_of_app.
  destruct e as [|y e].
  - right. apply IH. by cbn [concat app] in Hne.
  - left. by rewrite He.
Qed.

(** ** The demo data set *)

Lemma demo_dataset_ok : dataset_ok Demo.loaded.
Proof.
  assert (Hlines : ∀ lines : list str,
            bool_decide (lines ≠ [] ∧
                         Forall (fun line : str =>
                                   line ≠ [] ∧ Forall (fun c => c ∈ all_letters) line)
                                lines) = true →
            lines ≠ [] ∧
            ∀ line, line ∈ lines →
              line ≠ [] ∧ Forall (fun c => c ∈ all_letters) line).
  { intros lines [Hne Hall]%bool_decide_eq_true. split; [done|].
    by apply Forall_forall. }
  split; [discriminate|].
  change (all_categories Demo.loaded) with [lit "Irish"; lit "French"].
  intros category [->|[->|Hc%elem_of_nil]%elem_of_cons]%elem_of_cons; [| |done].
  - exists [lit "O'Neal"; lit "Adam"]. split; [vm_compute; reflexivity|].
    apply Hlines. vm_compute. reflexivity.
  - exists [lit "Rene"; lit "Clement"]. split; [vm_compute; reflexivity|].
    apply Hlines. vm_compute. reflexivity.
Qed.

Lemma demo_tags_covered :
  Forall (fun ex : list str * list str =>
            Forall (fun t => is_Some (tag_to_ix !! t)) (snd ex))
         training_data.
Proof. apply (bool_decide_unpack _). vm_compute. exact I. Qed.

(** ** C3 *)

(** C3 fails for the loop of the name generator.  On the demo data set of
    four (category, line) pairs, with a generator of [random] that always
    draws 0, four iterations process the pair [("Irish", "O'Neal")] four
    times and the other three pairs never: the examples processed are not
    passes over the data set, however they are grouped into epochs. *)
Lemma names_loop_is_not_a_full_pass :
  ∃ (losses : list Qc) (w' : world),
    Names.training_loop (T := Demo.torch) Demo.loaded 4
      (Demo.world0 (Demo.rnn_with_bias (fun _ => 0%Qc)) (fun _ => 0%nat)
                   (fun _ _ => true))
    = Ret (losses, w') ∧
    length (name_dataset Demo.loaded) = 4%nat ∧
    pairs_of_trace (trace w') = replicate 4 (lit "Irish", lit "O'Neal") ∧
    ¬ full_passes (name_dataset Demo.loaded) (pairs_of_trace (trace w')).
Proof.
  destruct (training_loop_run (T := Demo.torch) Demo.loaded demo_torch_ok 4
              (Demo.world0 (Demo.rnn_with_bias (fun _ => 0%Qc)) (fun _ => 0%nat)
                           (fun _ _ => true))
              demo_dataset_ok (demo_world_ok _ _ _))
    as (losses & w' & Hrun & _ & Htrace & _).
  cbn [Demo.world0 trace rand_tape rand_pos app] in Htrace.
  assert (Hpicks : picks Demo.loaded (fun _ => 0%nat) 0 4
                   = replicate 4 (lit "Irish", lit "O'Neal"))
    by (vm_compute; reflexivity).
  assert (Hpairs : pairs_of_trace (trace w') = replicate 4 (lit "Irish", lit "O'Neal")).
  { by rewrite Htrace, pairs_of_events, Hpicks. }
  exists losses, w'. split; [exact Hrun|]. split; [vm_compute; reflexivity|].
  split; [exact Hpairs|].
  rewrite Hpairs. intros Hfull.
  assert (Hin : (lit "Irish", lit "Adam") ∈ replicate 4 (lit "Irish", lit "O'Neal")).
  { apply (full_passes_visits _ _ _ Hfull); [discriminate|].
    apply (bool_decide_unpack _). vm_compute. exact I. }
  apply elem_of_replicate in Hin as [Heq _]. discriminate Heq.
Qed.



End EpochFacts.

(* ===================================================================== *)
(** * Properties: randomness                                              *)
(* ===================================================================== *)

Module RandomFacts.
Import Names TorchFacts TrainFacts LoopFacts SampleFacts EpochFacts.

(** ** The top index does not depend on the normaliser *)

Lemma Qccompare_shift (a b c : Qc) : (a - c ?= b - c)%Qc = (a ?= b)%Qc.
Proof.
  assert (Hlt : ∀ x y : Qc, (x < y)%Qc → (x - c < y - c)%Qc).
  { intros x y Hxy. apply Qclt_minus_iff. apply Qclt_minus_iff in Hxy.
    replace (y - c + - (x - c))%Qc with (y + - x)%Qc by ring. done. }
  destruct (a ?= b)%Qc eqn:Hab.
  - apply Qceq_alt in Hab. subst. by apply Qceq_alt.
  - apply Qclt_alt in Hab. by apply Qclt_alt, Hlt.
  - apply Qcgt_alt in Hab. by apply Qcgt_alt, Hlt.
Qed.

Lemma argmax_from_shift (c : Qc) (xs : vec) (i best_i : nat) (best : Qc) :
  snd (argmax_from i best_i (best - c)%Qc (map (fun v => (v - c)%Qc) xs))
  = snd (argmax_from i best_i best xs).
Proof.
  revert i best_i best. induction xs as [|x xs IH]; intros i bi b; [done|].
  cbn [map argmax_from]. rewrite Qccompare_shift.
  destruct (b ?= x)%Qc; apply IH.
Qed.

Lemma topk1_row_shift (c : Qc) (row : vec) :
  (snd <$> topk1_row (map (fun v => (v - c)%Qc) row)) = (snd <$> topk1_row row).
Proof.
  destruct row as [|x xs]; [done|]. cbn [map topk1_row].
  pose proof (argmax_from_shift c xs 1 0 x) as Hs.
  destruct (argmax_from 1 0 (x - c) _) as [v k], (argmax_from 1 0 x xs) as [v' k'].
  cbn in *. by subst.
Qed.

Lemma topk1_LogSoftmax (T : Torch) (x : matrix) :
  (snd <$> topk1 (LogSoftmax (T := T) x)) = (snd <$> topk1 x).
Proof.
  unfold topk1, LogSoftmax.
  set (shift := fun row : vec =>
                  map (fun v => (v - logsumexp (Torch := T) row)%Qc) row).
  assert (Hm : (map snd <$> mapM topk1_row (map shift x))
               = (map snd <$> mapM topk1_row x)).
  { induction x as [|row x IH]; [done|]. cbn [map mapM].
    pose proof (topk1_row_shift (logsumexp (Torch := T) row) row) as Hrow.
    fold (shift row) in Hrow.
    destruct (topk1_row (shift row)) as [[v k]|e], (topk1_row row) as [[v' k']|e'];
      simplify_eq/=; try done.
    destruct (mapM topk1_row (map shift x)) as [r|e],
             (mapM topk1_row x) as [r'|e']; simplify_eq/=; try done.
    by rewrite IH. }
  destruct (mapM topk1_row (map shift x)) as [r|e], (mapM topk1_row x) as [r'|e'];
    simplify_eq/=; try done. by rewrite Hm.
Qed.

Section normaliser.
Context (T T' : Torch).

(** Two tensor libraries agree on the hidden state and on the top index of
    a forward pass. *)
Lemma forward_normaliser (r : RNN) keep (c x h : matrix) :
  match forward (T := T) r keep c x h, forward (T := T') r keep c x h with
  | Ret o, Ret o' => snd o = snd o' ∧ (snd <$> topk1 (fst o)) = (snd <$> topk1 (fst o'))
  | Raise e, Raise e' => e = e'
  | _, _ => False
  end.
Proof.
  unfold forward.
  destruct (cat1 [c; x; h]) as [ic|e]; [|done]. cbn [mbind res_bind].
  destruct (linear (i2h r) ic) as [hd|e]; [|done]. cbn [mbind res_bind].
  destruct (linear (i2o r) ic) as [o1|e]; [|done]. cbn [mbind res_bind].
  destruct (cat1 [hd; o1]) as [oc|e]; [|done]. cbn [mbind res_bind].
  destruct (linear (o2o r) oc) as [o2|e]; [|done]. cbn [mbind res_bind fst snd].
  split; [done|]. by rewrite (topk1_LogSoftmax T), (topk1_LogSoftmax T').
Qed.

Lemma top_indices_normaliser (r : RNN) tape (c : matrix) (fuel : nat) :
  ∀ (pos : nat) (x h : matrix),
    top_indices (T := T) r tape c pos fuel x h
    = top_indices (T := T') r tape c pos fuel x h.
Proof.
  induction fuel as [|fuel IH]; intros pos x h; [done|].
  cbn [top_indices].
  pose proof (forward_normaliser r (tape pos) c x h) as Hf.
  destruct (forward (T := T) r (tape pos) c x h) as [[o hd]|e],
           (forward (T := T') r (tape pos) c x h) as [[o' hd']|e'];
    try done; [|by subst].
  cbn [fst snd] in Hf. destruct Hf as [<- Htop]. cbn [mbind res_bind fst snd].
  destruct (topk1 o) as [[tv ti]|e], (topk1 o') as [[tv' ti']|e'];
    simplify_eq/=; try done.
  destruct (row ← getitem ti' 0; getitem row 0) as [k|e]; [|done].
  cbn [mbind res_bind]. destruct (k =? n_letters - 1)%nat; [done|].
  destruct (getitem all_letters (Z.of_nat k)) as [letter|e]; [|done].
  cbn [mbind res_bind]. by rewrite IH.
Qed.

End normaliser.

End RandomFacts.

(* ===================================================================== *)
(** * Further properties of the data-loading cell and of the encodings    *)
(* ===================================================================== *)

Module DataFacts.
Import Names LoadingFacts EncodingFacts TrainFacts.

Section loading.
Context {P : Platform}.

Lemma load_loop_readable (files : list str) st :
  Forall (fun f => is_Some (read_text f)) files →
  ∃ st', for_each load_step files st = Ret st'.
Proof.
  intros Hall. revert st. induction Hall as [|f files [content Hf] _ IH]; intros st.
  - by exists st.
  - assert (Hstep : ∃ st1, load_step st f = Ret st1).
    { unfold load_step. rewrite (readLines_eq f content Hf). eauto. }
    destruct Hstep as [st1 Hstep]. cbn [for_each]. rewrite Hstep.
    cbn [mbind res_bind]. apply IH.
Qed.

Lemma load_loop_unreadable (files : list str) st :
  Exists (fun f => read_text f = None) files →
  for_each load_step files st = Raise OSError.
Proof.
  intros Hex. revert st. induction Hex as [f files Hf|f files _ IH]; intros st.
  - assert (Hstep : load_step st f = Raise OSError).
    { unfold load_step, readLines. by rewrite Hf. }
    cbn [for_each]. by rewrite Hstep.
  - cbn [for_each]. destruct (load_step st f) as [st1|e] eqn:Hstep.
    + cbn [mbind res_bind]. apply IH.
    + unfold load_step in Hstep.
      destruct (readLines f) as [lines|e2] eqn:Hr; [done|].
      apply readLines_raises in Hr. by simplify_eq/=.
Qed.


Lemma lstrip_blank (s : str) :
  Forall (fun c => isspace c = true) s → lstrip s = [].
Proof. induction 1 as [|c s Hc _ IH]; [done|]. simpl. by rewrite Hc. Qed.

(** [readLines] on a blank file.  A file that can be read always gives at
    least one line; a file that holds nothing but whitespace (an empty file
    too) gives exactly one line, the empty name. *)
Theorem readLines_blank_file (filename content : str) :
  Unicode_ok P →
  read_text filename = Some content →
  (∃ lines, readLines filename = Ret lines ∧ lines ≠ []) ∧
  (Forall (fun c => isspace c = true) content → readLines filename = Ret [[]]).
Proof.
  intros [Hnfd _] Hread. rewrite (readLines_eq _ _ Hread). split.
  - eexists. split; [done|].
    pose proof (split_nonempty newline (strip content)) as Hne.
    by destruct (split newline (strip content)).
  - intros Hblank. unfold strip. rewrite (lstrip_blank _ Hblank).
    cbn [rstrip split map]. unfold unicodeToAscii.
    by rewrite (Hnfd [] (Forall_nil_2 _)).
Qed.

End loading.

Lemma blank_platform_ok : Unicode_ok Demo.blank_platform.
Proof. exact demo_platform_ok. Qed.

Lemma readLines_blank_file_witness :
  (∃ lines, readLines (P := Demo.blank_platform) (lit "data/names/Blank.txt")
            = Ret lines ∧ lines ≠ []) ∧
  (Forall (fun c => isspace c = true) [newline; 32%N; newline] →
   readLines (P := Demo.blank_platform) (lit "data/names/Blank.txt") = Ret [[]]).
Proof.
  apply (readLines_blank_file (P := Demo.blank_platform)
           (lit "data/names/Blank.txt") [newline; 32%N; newline]
           blank_platform_ok eq_refl).
Defined.

(** The cell leaves one category with one empty name on the blank
    platform. *)
Example blank_load : load (P := Demo.blank_platform) = Ret Demo.blank_globals.
Proof. vm_compute. reflexivity. Qed.

(** Characters outside the alphabet.  [inputTensor] and [targetTensor]
    never raise, whatever the line.  A character that is not in
    [all_letters] is encoded by [inputTensor] as the one-hot row of the EOS
    index [n_letters - 1] (the subscript [-1]), and by [targetTensor] as the
    class [-1]; a character of [all_letters] has its own position in
    both. *)
Theorem encodings_outside_alphabet (line : str) :
  ∃ (input : tensor3) (target : list Z),
    inputTensor line = Ret input ∧
    targetTensor line = Ret target ∧
    length input = length line ∧
    length target = Nat.max 1 (length line) ∧
    ∀ (i : nat) (c : N), line !! i = Some c →
      ∃ k : nat,
        input !! i = Some [one_hot n_letters k] ∧
        (c ∉ all_letters → k = (n_letters - 1)%nat ∧
                           ∀ j, i = S j → target !! j = Some (-1)) ∧
        (c ∈ all_letters → all_letters !! k = Some c ∧
                           ∀ j, i = S j → target !! j = Some (Z.of_nat k)).
Proof.
  exists (map enc line), (map (find all_letters) (drop 1 line) ++ [Z.of_nat n_letters - 1]).
  split; [apply inputTensor_eq|]. split; [apply targetTensor_eq|].
  split; [by rewrite length_map|]. split.
  { rewrite length_app, length_map, length_drop. simpl. lia. }
  intros i c Hi. exists (letter_slot c).
  split; [by rewrite list_lookup_fmap, Hi|].
  assert (Htarget : ∀ j, i = S j →
            (map (find all_letters) (drop 1 line) ++ [Z.of_nat n_letters - 1]) !! j
            = Some (find all_letters c)).
  { intros j ->. pose proof (lookup_lt_Some _ _ _ Hi) as Hlt.
    rewrite lookup_app_l by (rewrite length_map, length_drop; lia).
    rewrite list_lookup_fmap, lookup_drop. cbn [Nat.add]. by rewrite Hi. }
  split.
  - intros Hc. destruct (find_spec all_letters c) as [[Hf _]|(k & _ & Hk & _)].
    + split.
      * unfold letter_slot. rewrite Hf. reflexivity.
      * intros j Hj. rewrite (Htarget j Hj). by rewrite Hf.
    + exfalso. apply Hc. by eapply list_elem_of_lookup_2.
  - intros Hc. destruct (letter_slot_elem_of c Hc) as [Hf Hk].
    split; [done|]. intros j Hj. by rewrite (Htarget j Hj), Hf.
Qed.

Section unknown.
Context {T : Torch}.

(** A category that is not in [all_categories]: [categoryTensor] raises
    [ValueError] (from [list.index]), and so does [sample], before any
    forward pass. *)
Theorem unknown_category_raises (g : globals) (category : str) :
  category ∉ all_categories g →
  categoryTensor g category = Raise ValueError ∧
  ∀ (start_letter : str) (w : world),
    sample g category start_letter w = Raise ValueError.
Proof.
  intros Hc.
  assert (Hct : categoryTensor g category = Raise ValueError).
  { unfold categoryTensor. by rewrite (index_absent _ _ Hc). }
  split; [done|]. intros start_letter w. unfold sample.
  apply M_bind_raise. by rewrite Hct.
Qed.

(** [train] on an input of no timestep raises [AttributeError]: the loop
    body never runs, [loss] is still the integer [0] and has no
    [backward]. *)
Theorem train_no_timestep_raises (category_tensor : matrix)
    (target_line_tensor : list Z) (w : world) :
  train category_tensor [] target_line_tensor w = Raise AttributeError.
Proof. reflexivity. Qed.

(** An empty name stops the training loop: when the pair drawn at the
    first iteration has an empty line, the loop raises [AttributeError] at
    that iteration, whatever the number of iterations asked for. *)
Theorem training_loop_stops_on_empty_line (g : globals) (w : world)
    (category : str) (n : nat) :
  (1 ≤ n)%nat →
  category ∈ all_categories g →
  pick g (rand_tape w) (rand_pos w) = Some (category, []) →
  training_loop g n w = Raise AttributeError.
Proof.
  intros Hn Hc Hpick.
  destruct (index_spec _ _ Hc) as (li & Hli & Hlook & _).
  assert (Hlt : (li < n_categories g)%nat) by (by eapply lookup_lt_Some).
  pose proof (categoryTensor_eq g category li Hli Hlt) as Hct.
  unfold training_loop, range. replace (n + 1 - 1)%nat with n by lia.
  destruct n as [|n]; [lia|]. cbn [seq forM].
  apply M_bind_raise. apply M_bind_raise.
  unfold training_body.
  assert (Hex : randomTrainingExample g w
                = Ret (([one_hot (n_categories g) li], [], [Z.of_nat n_letters - 1]),
                       World (rnn w) (grad w) (rand_tape w) (2 + rand_pos w)
                             (drop_tape w) (drop_pos w)
                             (trace w ++ [EvPair category []]))).
  { unfold randomTrainingExample.
    rewrite (M_bind_run _ _ _ _ _ (LoopFacts.randomTrainingPair_run g w category [] Hpick)).
    cbv beta zeta match.
    rewrite (M_bind_run _ _ _ _ _ (lift_run _ _ _ Hct)). cbv beta.
    reflexivity. }
  rewrite (M_bind_run _ _ _ _ _ Hex). cbv beta zeta match.
  apply M_bind_raise. reflexivity.
Qed.

End unknown.

Lemma unknown_category_raises_witness :
  categoryTensor Demo.loaded (lit "German") = Raise ValueError ∧
  ∀ (start_letter : str) (w : world),
    sample (T := Demo.torch) Demo.loaded (lit "German") start_letter w
    = Raise ValueError.
Proof.
  apply (unknown_category_raises (T := Demo.torch) Demo.loaded (lit "German")).
  apply (bool_decide_unpack _). vm_compute. exact I.
Defined.

Lemma training_loop_stops_on_empty_line_witness :
  training_loop (T := Demo.torch) Demo.blank_globals 100
    (Demo.world0 (Demo.rnn_with_bias (fun _ => 0%Qc)) (fun _ => 0%nat)
                 (fun _ _ => true))
  = Raise AttributeError.
Proof.
  apply (training_loop_stops_on_empty_line (T := Demo.torch) Demo.blank_globals
           (Demo.world0 (Demo.rnn_with_bias (fun _ => 0%Qc)) (fun _ => 0%nat)
                        (fun _ _ => true))
           (lit "Blank") 100).
  - lia.
  - apply (bool_decide_unpack _). vm_compute. exact I.
  - vm_compute. reflexivity.
Defined.

End DataFacts.

(* ===================================================================== *)
(** * Further properties of the random draws and of the vocabulary        *)
(* ===================================================================== *)

Module DrawFacts.
Import Names Tagger TaggerFacts TrainFacts LoopFacts EpochFacts.

(** [randomChoice].  On an empty list it raises [ValueError] (the empty
    range of [randint]).  On any other list it returns the item at the
    position the generator draws, an item of the list, and moves the
    generator by one cell, changing nothing else; and every item of the list
    is returned for some draw. *)
Theorem randomChoice_draws_an_item {A : Type} (l : list A) (w : world) :
  (l = [] → randomChoice l w = Raise ValueError) ∧
  (l ≠ [] →
   ∃ x, x ∈ l ∧
        l !! (rand_tape w (rand_pos w) mod length l)%nat = Some x ∧
        randomChoice l w
        = Ret (x, World (rnn w) (grad w) (rand_tape w) (S (rand_pos w))
                        (drop_tape w) (drop_pos w) (trace w))) ∧
  (∀ x, x ∈ l →
   ∃ tape,
     randomChoice l (World (rnn w) (grad w) tape (rand_pos w)
                           (drop_tape w) (drop_pos w) (trace w))
     = Ret (x, World (rnn w) (grad w) tape (S (rand_pos w))
                     (drop_tape w) (drop_pos w) (trace w))).
Proof.
  split; [|split].
  - intros ->. reflexivity.
  - intros Hne.
    destruct (lookup_lt_is_Some_2 l (rand_tape w (rand_pos w) mod length l)%nat)
      as [x Hx].
    { apply Nat.mod_upper_bound. destruct l; [done | simpl; lia]. }
    exists x. split; [by eapply list_elem_of_lookup_2|]. split; [done|].
    by apply randomChoice_run.
  - intros x Hx. apply list_elem_of_lookup_1 in Hx as [i Hi].
    exists (fun _ => i).
    apply (randomChoice_run l (World (rnn w) (grad w) (fun _ => i) (rand_pos w)
                                     (drop_tape w) (drop_pos w) (trace w)) x).
    cbn [rand_tape rand_pos].
    rewrite Nat.mod_small by (by eapply lookup_lt_Some). done.
Qed.

Section pairs.
Variable g : globals.

Lemma randomChoice_nil_raises {A} (w : world) :
  randomChoice (A := A) [] w = Raise ValueError.
Proof. reflexivity. Qed.

Lemma pick_None_raises (w : world) :
  pick g (rand_tape w) (rand_pos w) = None →
  randomTrainingPair g w = Raise ValueError ∨
  randomTrainingPair g w = Raise KeyError.
Proof.
  unfold pick. intros Hp.
  destruct (all_categories g !! (rand_tape w (rand_pos w) mod n_categories g)%nat)
    as [category|] eqn:Hc.
  - pose proof (randomChoice_run _ w _ Hc) as Hrun1. cbn in Hp.
    set (w1 := World (rnn w) (grad w) (rand_tape w) (S (rand_pos w))
                     (drop_tape w) (drop_pos w) (trace w)) in *.
    destruct (category_lines g !! category) as [lines|] eqn:Hl.
    + cbn in Hp. left. unfold randomTrainingPair.
      rewrite (M_bind_run _ _ _ _ _ Hrun1). cbv beta.
      assert (Hd : dict_get (category_lines g) category = Ret lines)
        by (unfold dict_get; by rewrite Hl).
      rewrite (M_bind_run _ _ _ _ _ (lift_run _ _ _ Hd)). cbv beta.
      apply M_bind_raise.
      destruct lines as [|l0 lines]; [reflexivity|].
      exfalso.
      destruct (lookup_lt_is_Some_2 (l0 :: lines)
                  (rand_tape w (S (rand_pos w)) mod length (l0 :: lines))%nat)
        as [x Hx]; [apply Nat.mod_upper_bound; simpl; lia|].
      by rewrite Hx in Hp.
    + right. unfold randomTrainingPair.
      rewrite (M_bind_run _ _ _ _ _ Hrun1). cbv beta.
      apply M_bind_raise. unfold dict_get. by rewrite Hl.
  - left. unfold randomTrainingPair. apply M_bind_raise.
    destruct (all_categories g) as [|c0 cs] eqn:Hcs; [reflexivity|].
    exfalso. unfold n_categories in Hc. rewrite Hcs in Hc.
    destruct (lookup_lt_is_Some_2 (c0 :: cs)
                (rand_tape w (rand_pos w) mod length (c0 :: cs))%nat)
      as [x Hx]; [apply Nat.mod_upper_bound; simpl; lia|].
    by rewrite Hx in Hc.
Qed.

(** [randomTrainingPair].  Whenever it returns, the pair is a line of the
    data set with its category, two cells of the generator of [random] were
    read, and nothing else changed; whenever it raises, it raises
    [ValueError] (no category, or a category without line) or [KeyError];
    and every pair of the data set is returned for some draws. *)
Theorem randomTrainingPair_draws_from_dataset (w : world) :
  (∀ p w', randomTrainingPair g w = Ret (p, w') →
     p ∈ name_dataset g ∧
     w' = World (rnn w) (grad w) (rand_tape w) (2 + rand_pos w)
                (drop_tape w) (drop_pos w) (trace w ++ [EvPair (fst p) (snd p)])) ∧
  (∀ e, randomTrainingPair g w = Raise e → e = ValueError ∨ e = KeyError) ∧
  (∀ p, p ∈ name_dataset g →
     ∃ tape w',
       randomTrainingPair g (World (rnn w) (grad w) tape (rand_pos w)
                                   (drop_tape w) (drop_pos w) (trace w))
       = Ret (p, w')).
Proof.
  split; [|split].
  - intros p w' Hrun.
    destruct (pick g (rand_tape w) (rand_pos w)) as [[category line]|] eqn:Hp.
    + rewrite (randomTrainingPair_run g w category line Hp) in Hrun.
      injection Hrun as <- <-. split; [by eapply pick_in_dataset | done].
    + destruct (pick_None_raises w Hp) as [Hr|Hr]; by rewrite Hr in Hrun.
  - intros e Hrun.
    destruct (pick g (rand_tape w) (rand_pos w)) as [[category line]|] eqn:Hp.
    + by rewrite (randomTrainingPair_run g w category line Hp) in Hrun.
    + destruct (pick_None_raises w Hp) as [Hr|Hr]; rewrite Hr in Hrun;
        injection Hrun as <-; eauto.
  - intros [category line] Hin.
    unfold name_dataset in Hin.
    apply list_elem_of_In, in_flat_map in Hin as (c & Hc & Hin).
    apply list_elem_of_In, list_elem_of_lookup_1 in Hc as [i Hi].
    destruct (category_lines g !! c) as [lines|] eqn:Hl; [|by destruct Hin].
    apply list_elem_of_In, list_elem_of_fmap in Hin as (l & [= -> ->] & Hline).
    apply list_elem_of_lookup_1 in Hline as [j Hj].
    set (tape := fun k => if (k =? rand_pos w)%nat then i else j).
    exists tape. eexists.
    apply (randomTrainingPair_run g
             (World (rnn w) (grad w) tape (rand_pos w) (drop_tape w)
                    (drop_pos w) (trace w)) c l).
    unfold pick. cbn [rand_tape rand_pos]. subst tape. cbn beta.
    rewrite Nat.eqb_refl.
    destruct (Nat.eqb_spec (S (rand_pos w)) (rand_pos w)) as [Heq|_]; [lia|].
    rewrite Nat.mod_small by (by eapply lookup_lt_Some).
    rewrite Hi. cbn. rewrite Hl. cbn.
    rewrite Nat.mod_small by (by eapply lookup_lt_Some).
    by rewrite Hj.
Qed.

End pairs.

(** ** The vocabulary *)

Section vocabulary.
Context {K : Type} `{Countable K}.


Lemma dom_add_sent (ws : list K) (m : gmap K nat) :
  dom (add_sent m ws) = dom m ∪ list_to_set ws.
Proof.
  revert m. induction ws as [|x ws IH]; intros m.
  - cbn. set_solver.
  - cbn [add_sent foldl list_to_set]. fold (add_sent (add_word m x) ws).
    rewrite IH. unfold add_word. destruct (m !! x) as [k|] eqn:Hx.
    + assert (x ∈ dom m) by (apply elem_of_dom; eauto). set_solver.
    + rewrite dom_insert_L. set_solver.
Qed.

(** The finished vocabulary.  Its keys are the words of the training
    data, its size is the number of distinct words, and the index of a word
    is the number of distinct words before its first occurrence. *)
Theorem word_to_ix_counts_distinct_words {G : Type}
    (training_data : list (list K * G)) :
  let words := concat (map fst training_data) in
  let word_to_ix := add_data ∅ training_data in
  dom word_to_ix = list_to_set words ∧
  size word_to_ix = size (list_to_set words : gset K) ∧
  ∀ before w after,
    words = before ++ w :: after → w ∉ before →
    word_to_ix !! w = Some (size (list_to_set before : gset K)).
Proof.
  intros words word_to_ix. subst word_to_ix. rewrite add_data_words. fold words.
  assert (Hdom : ∀ ws, dom (add_sent (∅ : gmap K nat) ws) = list_to_set ws).
  { intros ws. rewrite dom_add_sent, dom_empty_L. set_solver. }
  split; [apply Hdom|]. split.
  - by rewrite <- (Hdom words), size_dom.
  - intros before w after -> Hw.
    rewrite add_sent_app. cbn [add_sent foldl].
    fold (add_sent (add_word (add_sent ∅ before) w) after).
    apply add_sent_keeps.
    assert (Hnone : add_sent (∅ : gmap K nat) before !! w = None).
    { apply not_elem_of_dom. rewrite Hdom. by rewrite elem_of_list_to_set. }
    rewrite add_word_fresh by done. rewrite lookup_insert_eq.
    by rewrite <- (Hdom before), size_dom.
Qed.

Lemma prepare_sequence_Forall2 (seq : list K) (to_ix : gmap K nat)
    (idxs : list nat) :
  prepare_sequence seq to_ix = Ret idxs →
  Forall2 (fun w i => to_ix !! w = Some i) seq idxs.
Proof.
  unfold prepare_sequence. revert idxs.
  induction seq as [|w ws IH]; intros idxs Hrun.
  - injection Hrun as <-. constructor.
  - cbn [mapM] in Hrun.
    apply PyFacts.bind_Ret in Hrun as (k & Hk & Hrun).
    apply PyFacts.bind_Ret in Hrun as (rest & Hrest & Hrun).
    injection Hrun as <-. constructor; [|by apply IH].
    unfold dict_get in Hk. by destruct (to_ix !! w) as [k'|]; simplify_eq/=.
Qed.

(** Every sentence of the training data is indexable by the vocabulary
    built from the data: [prepare_sequence] returns one index per word, and
    every index is below the size of the vocabulary. *)
Theorem training_sentences_are_indexable {G : Type}
    (training_data : list (list K * G)) (ex : list K * G) :
  ex ∈ training_data →
  ∃ idxs,
    prepare_sequence (fst ex) (add_data ∅ training_data) = Ret idxs ∧
    length idxs = length (fst ex) ∧
    Forall (fun i => (i < size (add_data ∅ training_data))%nat) idxs.
Proof.
  intros Hex. pose proof (add_data_binds training_data ex Hex) as Hbound.
  destruct (prepare_sequence_total _ _ Hbound) as [idxs Hidxs].
  exists idxs. split; [done|].
  pose proof (prepare_sequence_Forall2 _ _ _ Hidxs) as Hf.
  split; [symmetry; by eapply Forall2_length|].
  assert (Hdense : dense (add_data ∅ training_data)).
  { rewrite add_data_words. apply dense_add_sent, dense_empty. }
  destruct Hdense as [Hix _].
  eapply Forall2_Forall_r; [exact Hf|].
  apply Forall_forall. intros w _ i Hw. apply Hix. eauto.
Qed.

End vocabulary.

Lemma training_sentences_are_indexable_witness :
  ∃ idxs,
    prepare_sequence (split_ws (lit "Everybody read that book")) word_to_ix
    = Ret idxs ∧
    length idxs = 4%nat ∧
    Forall (fun i => (i < size word_to_ix)%nat) idxs.
Proof.
  apply (training_sentences_are_indexable training_data
           (split_ws (lit "Everybody read that book"),
            [lit "NN"; lit "V"; lit "DET"; lit "NN"])).
  apply (bool_decide_unpack _). vm_compute. exact I.
Defined.

(** The sentence of the notebook and its indices. *)
Example prepare_sequence_notebook :
  prepare_sequence (split_ws (lit "The dog ate the apple")) word_to_ix
  = Ret [0; 1; 2; 3; 4]%nat ∧
  prepare_sequence [lit "cat"] word_to_ix = Raise KeyError.
Proof. vm_compute. split; reflexivity. Qed.

End DrawFacts.

(* ===================================================================== *)
(** * Further properties of [train], [sample] and the training loop       *)
(* ===================================================================== *)

Module RunFacts.
Import Names TorchFacts TrainFacts EncodingFacts SampleFacts LoopFacts RandomFacts.

Ltac mstep H := rewrite (M_bind_run _ _ _ _ _ H); cbv beta zeta match.

Lemma after_forward_add (k1 k2 : nat) (w : world) :
  after_forward k2 (after_forward k1 w) = after_forward (k1 + k2) w.
Proof.
  unfold after_forward. cbn [rnn grad rand_tape rand_pos drop_tape drop_pos trace].
  rewrite <- app_assoc, <- replicate_add. f_equal. lia.
Qed.

Lemma letters_of_alphabet (tops : list nat) :
  Forall (fun c => c ∈ all_letters) (letters_of tops).
Proof.
  unfold letters_of. induction tops as [|k tops IH]; [constructor|].
  cbn [omap list_omap]. destruct (k =? n_letters - 1)%nat; [done|].
  destruct (all_letters !! k) as [c|] eqn:Hc; [|done].
  constructor; [by eapply list_elem_of_lookup_2 | done].
Qed.

Section sampling.
Context {T : Torch}.
Variable g : globals.

Lemma sample_run (w : world) (category : str) (start_letter : N) :
  RNN_ok (n_categories g) n_letters (hidden_size (rnn w)) n_letters (rnn w) →
  category ∈ all_categories g →
  ∃ tops,
    sample g category [start_letter] w
    = Ret (start_letter :: letters_of tops, after_forward (length tops) w) ∧
    (length tops ≤ max_length)%nat.
Proof.
  intros Hr Hc.
  destruct (index_spec _ _ Hc) as (li & Hli & Hlook & _).
  assert (Hlt : (li < n_categories g)%nat) by (by eapply lookup_lt_Some).
  pose proof (categoryTensor_eq g category li Hli Hlt) as Hct.
  destruct (sample_loop_run g (one_hot (n_categories g) li) (range 0 max_length)
              (one_hot_length _ _) w (one_hot n_letters (letter_slot start_letter))
              (zeros1 (hidden_size (rnn w))) [start_letter] Hr
              (one_hot_length _ _) (length_zeros1 _))
    as (tops & _ & Hrun & Hlen & _).
  assert (Hfuel : length (range 0 max_length) = max_length).
  { unfold range. rewrite length_seq. lia. }
  rewrite Hfuel in Hlen. exists tops. split; [|done].
  unfold sample.
  rewrite (M_bind_run _ _ _ _ _ (lift_run _ _ w Hct)). cbv beta.
  rewrite (M_bind_run _ _ _ _ _ (lift_run _ _ w (inputTensor_eq [start_letter]))).
  cbv beta.
  assert (H0 : initHidden w = Ret (zeros2 1 (hidden_size (rnn w)), w)) by done.
  mstep H0. exact Hrun.
Qed.

(** What [sample] changes.  A call of [sample] leaves the parameters, the
    gradients and the generator of [random] as they are: the kernel after
    the call is the kernel before it with [k] more forward passes, [k] at
    most [max_length], and nothing else.  Every character of the name after
    the start letter is a letter of [all_letters]: the EOS index never
    becomes a character. *)
Theorem sample_only_runs_forward_passes (w : world) (category : str)
    (start_letter : N) :
  RNN_ok (n_categories g) n_letters (hidden_size (rnn w)) n_letters (rnn w) →
  category ∈ all_categories g →
  ∃ (name : str) (k : nat),
    sample g category [start_letter] w = Ret (name, after_forward k w) ∧
    (k ≤ max_length)%nat ∧
    Forall (fun c => c ∈ all_letters) (tail name).
Proof.
  intros Hr Hc. destruct (sample_run w category start_letter Hr Hc)
    as (tops & Hrun & Hlen).
  exists (start_letter :: letters_of tops), (length tops).
  split; [done|]. split; [done|]. apply letters_of_alphabet.
Qed.

Lemma samples_loop (category : str) (start_letters : str) :
  category ∈ all_categories g →
  ∀ (printed : list str) (w : world),
    RNN_ok (n_categories g) n_letters (hidden_size (rnn w)) n_letters (rnn w) →
    ∃ (names : list str) (k : nat),
      forM (fun printed start_letter =>
              name ← sample g category [start_letter];
              mret (printed ++ [name]))
           start_letters printed w
      = Ret (printed ++ names, after_forward k w) ∧
      (k ≤ max_length * length start_letters)%nat ∧
      Forall2 (fun c name => head name = Some c ∧
                             (1 ≤ length name ≤ max_length + 1)%nat)
              start_letters names.
Proof.
  intros Hc. induction start_letters as [|c cs IH]; intros printed w Hr.
  - exists [], 0%nat. cbn [forM]. rewrite app_nil_r, after_forward_0.
    split; [done|]. split; [simpl; lia | constructor].
  - destruct (sample_run w category c Hr Hc) as (tops & Hrun & Hlen).
    destruct (IH (printed ++ [c :: letters_of tops]) (after_forward (length tops) w))
      as (names & k & Hloop & Hk & Hnames); [exact Hr|].
    exists ((c :: letters_of tops) :: names), (length tops + k)%nat.
    cbn [forM]. 
    assert (Hbody : (name ← sample g category [c]; mret (printed ++ [name])) w
                    = Ret (printed ++ [c :: letters_of tops],
                           after_forward (length tops) w)).
    { mstep Hrun. reflexivity. }
    mstep Hbody. rewrite Hloop, after_forward_add, <- app_assoc.
    split; [done|]. split; [cbn [length]; lia|].
    constructor; [|done]. split; [done|]. cbn [length].
    pose proof (length_letters_of tops). lia.
Qed.

(** [samples] returns one name per start letter, in the order of the
    start letters: name [i] begins with start letter [i] and has at most
    [max_length + 1] characters; all the calls together run at most
    [max_length] forward passes per start letter and change nothing else. *)
Theorem samples_one_name_per_start_letter (w : world) (category : str)
    (start_letters : str) :
  RNN_ok (n_categories g) n_letters (hidden_size (rnn w)) n_letters (rnn w) →
  category ∈ all_categories g →
  ∃ (names : list str) (k : nat),
    samples g category start_letters w = Ret (names, after_forward k w) ∧
    (k ≤ max_length * length start_letters)%nat ∧
    Forall2 (fun c name => head name = Some c ∧
                           (1 ≤ length name ≤ max_length + 1)%nat)
            start_letters names.
Proof.
  intros Hr Hc.
  destruct (samples_loop category start_letters Hc [] w Hr)
    as (names & k & Hrun & Hk & Hnames).
  exists names, k. split; [exact Hrun | done].
Qed.

End sampling.

Lemma sample_only_runs_forward_passes_witness :
  ∃ (name : str) (k : nat),
    sample (T := Demo.torch) Demo.loaded (lit "French") (lit "R")
           (Demo.world0 Demo.rnn_a_then_eos (fun _ => 0%nat) Demo.keep_all)
    = Ret (name, after_forward k
                   (Demo.world0 Demo.rnn_a_then_eos (fun _ => 0%nat) Demo.keep_all)) ∧
    (k ≤ max_length)%nat ∧
    Forall (fun c => c ∈ all_letters) (tail name).
Proof.
  apply (sample_only_runs_forward_passes (T := Demo.torch) Demo.loaded
           (Demo.world0 Demo.rnn_a_then_eos (fun _ => 0%nat) Demo.keep_all)
           (lit "French") 82%N).
  - apply RNN_init_ok.
  - apply (bool_decide_unpack _). vm_compute. exact I.
Defined.

Lemma samples_one_name_per_start_letter_witness :
  ∃ (names : list str) (k : nat),
    samples (T := Demo.torch) Demo.loaded (lit "Irish") (lit "RUS")
            (Demo.world0 Demo.rnn_a_then_eos (fun _ => 0%nat) Demo.keep_all)
    = Ret (names, after_forward k
                    (Demo.world0 Demo.rnn_a_then_eos (fun _ => 0%nat) Demo.keep_all)) ∧
    (k ≤ max_length * length (lit "RUS"))%nat ∧
    Forall2 (fun c name => head name = Some c ∧
                           (1 ≤ length name ≤ max_length + 1)%nat)
            (lit "RUS") names.
Proof.
  apply (samples_one_name_per_start_letter (T := Demo.torch) Demo.loaded
           (Demo.world0 Demo.rnn_a_then_eos (fun _ => 0%nat) Demo.keep_all)
           (lit "Irish") (lit "RUS")).
  - apply RNN_init_ok.
  - apply (bool_decide_unpack _). vm_compute. exact I.
Defined.

Section training.
Context {T : Torch}.
Variable g : globals.
Hypothesis torch_ok : Torch_ok.

(** What [train] keeps.  A call of [train] on a well-shaped example keeps
    the kernel well formed: the layers keep their sizes, every parameter
    keeps its shape, and afterwards every parameter has a gradient of its
    shape.  The call reads one draw of the dropout layer per timestep and
    does not touch the generator of [random]. *)
Theorem train_keeps_the_shapes (w : world) (category_tensor : matrix)
    (input_line_tensor : tensor3) (target_line_tensor : list Z) :
  world_ok g w →
  example_ok g category_tensor input_line_tensor target_line_tensor →
  (1 ≤ length input_line_tensor)%nat →
  ∃ r w',
    train category_tensor input_line_tensor target_line_tensor w = Ret (r, w') ∧
    world_ok g w' ∧
    same_dims (rnn w') (rnn w) ∧
    (∀ p, same_shape (get_param p (rnn w')) (get_param p (rnn w))) ∧
    (∀ p, ∃ gp, grad w' p = Some gp ∧ same_shape gp (get_param p (rnn w'))) ∧
    rand_tape w' = rand_tape w ∧ rand_pos w' = rand_pos w ∧
    drop_tape w' = drop_tape w ∧
    drop_pos w' = (length input_line_tensor + drop_pos w)%nat.
Proof using torch_ok.
  intros Hw Hex HL.
  assert (Hne : input_line_tensor ≠ [])
    by (destruct input_line_tensor; [simpl in HL; lia | done]).
  destruct (train_run g w _ _ _ torch_ok Hw Hex Hne)
    as (steps & output & r' & gr' & _ & _ & _ & Hrun & Hdims & Hgr & Hp).
  eexists _, _. split; [exact Hrun|].
  assert (Hok : world_ok g
            (World r' gr' (rand_tape w) (rand_pos w) (drop_tape w)
                   (length input_line_tensor + drop_pos w)
                   (trace w ++ replicate (length input_line_tensor) EvForward
                      ++ [EvBackward] ++ map EvUpdate parameters))).
  { by eapply (train_keeps_world_ok g torch_ok w). }
  split; [exact Hok|]. cbn [rnn grad rand_tape rand_pos drop_tape drop_pos].
  split; [exact Hdims|]. split.
  { intros p. rewrite Hp. apply same_shape_zip, torch_ok. }
  split; [|done].
  intros p. eexists. split; [apply Hgr|].
  destruct Hok as [_ Hshape]. cbn [rnn grad] in Hshape. by apply Hshape.
Qed.

Lemma training_body_state (st : list Qc * Qc) (iter : nat) (w : world) :
  dataset_ok g → world_ok g w →
  ∃ loss w',
    training_body g st iter w
    = Ret (if (iter mod plot_every =? 0)%nat
           then (fst st ++ [((snd st + loss) / Qc_of_nat plot_every)%Qc], 0%Qc)
           else (fst st, (snd st + loss)%Qc),
           w') ∧
    world_ok g w'.
Proof using torch_ok.
  intros Hdata Hw.
  destruct (pick_total g (rand_tape w) (rand_pos w) Hdata)
    as (category & line & Hpick & Hcat & Hne & Hline).
  destruct (example_ok_pair g category line Hcat Hne Hline)
    as (ct & it & tt & Hct & Hit & Htt & Hlen & Hex).
  set (w1 := World (rnn w) (grad w) (rand_tape w) (2 + rand_pos w)
                   (drop_tape w) (drop_pos w) (trace w ++ [EvPair category line])).
  assert (Hw1 : world_ok g w1) by (destruct Hw; by split).
  assert (Hit_ne : it ≠ []) by (destruct it; [by destruct line | done]).
  destruct (train_run g w1 ct it tt torch_ok Hw1 Hex Hit_ne)
    as (steps & output & r' & gr' & _ & _ & _ & Htrain & Hdims & Hgr & Hp).
  assert (Hexample : randomTrainingExample g w = Ret ((ct, it, tt), w1)).
  { unfold randomTrainingExample.
    mstep (randomTrainingPair_run g w category line Hpick). fold w1.
    rewrite (M_bind_run _ _ _ _ _ (lift_run _ _ _ Hct)). cbv beta.
    rewrite (M_bind_run _ _ _ _ _ (lift_run _ _ _ Hit)). cbv beta.
    rewrite (M_bind_run _ _ _ _ _ (lift_run _ _ _ Htt)). cbv beta.
    reflexivity. }
  destruct st as [all_losses total_loss].
  unfold training_body. mstep Hexample. mstep Htrain.
  eexists _, _. split.
  - cbn [fst snd]. destruct (iter mod plot_every =? 0)%nat; reflexivity.
  - by eapply (train_keeps_world_ok g torch_ok w1).
Qed.

Lemma losses_loop (n : nat) :
  dataset_ok g →
  ∀ (a : nat) (st : list Qc * Qc) (w : world),
    world_ok g w → (1 ≤ a)%nat →
    ∃ st' w',
      forM (training_body g) (seq a n) st w = Ret (st', w') ∧
      length (fst st')
      = (length (fst st) + ((a + n - 1) / plot_every - (a - 1) / plot_every))%nat.
Proof using torch_ok.
  intros Hdata. induction n as [|n IH]; intros a st w Hw Ha.
  - exists st, w. split; [done|]. replace (a + 0 - 1)%nat with (a - 1)%nat by lia. lia.
  - destruct (training_body_state st a w Hdata Hw) as (loss & w1 & Hbody & Hw1).
    set (st1 := if (a mod plot_every =? 0)%nat
                then (fst st ++ [((snd st + loss) / Qc_of_nat plot_every)%Qc], 0%Qc)
                else (fst st, (snd st + loss)%Qc)) in Hbody.
    destruct (IH (S a) st1 w1 Hw1) as (st' & w' & Hrun & Hlen); [lia|].
    exists st', w'. cbn [seq forM]. mstep Hbody. split; [exact Hrun|].
    subst st1.
    rewrite Hlen. unfold plot_every.
    replace (S a + n - 1)%nat with (a + n)%nat by lia.
    replace (a + S n - 1)%nat with (a + n)%nat by lia.
    replace (S a - 1)%nat with a by lia.
    pose proof (Nat.div_mod_eq a 500). pose proof (Nat.mod_upper_bound a 500).
    pose proof (Nat.div_mod_eq (a - 1) 500).
    pose proof (Nat.mod_upper_bound (a - 1) 500).
    pose proof (Nat.div_mod_eq (a + n) 500).
    pose proof (Nat.mod_upper_bound (a + n) 500).
    destruct (Nat.eqb_spec (a mod 500) 0) as [Hm|Hm]; cbn [fst];
      rewrite ?length_app; cbn [length]; lia.
Qed.

(** The losses kept for the plot.  On a data set [train] can run on, the
    training loop of [n] iterations returns one entry of [all_losses] per
    [plot_every] iterations completed: [n // plot_every] entries. *)
Theorem all_losses_one_entry_per_plot_every (n : nat) (w : world) :
  dataset_ok g → world_ok g w →
  ∃ losses w',
    training_loop g n w = Ret (losses, w') ∧
    length losses = (n / plot_every)%nat.
Proof using torch_ok.
  intros Hdata Hw.
  destruct (losses_loop n Hdata 1 ([], 0%Qc) w Hw) as (st' & w' & Hrun & Hlen); [lia|].
  exists (fst st'), w'. split.
  - unfold training_loop, range. replace (n + 1 - 1)%nat with n by lia.
    mstep Hrun. reflexivity.
  - rewrite Hlen. cbn [fst length]. replace (1 + n - 1)%nat with n by lia.
    unfold plot_every. rewrite (Nat.div_small (1 - 1) 500) by lia. lia.
Qed.

End training.

Lemma train_keeps_the_shapes_witness :
  ∃ r w',
    train (T := Demo.torch) Demo.adam_category Demo.adam_input Demo.adam_target
          (Demo.world0 Demo.rnn_a_then_eos (fun _ => 0%nat) Demo.keep_all)
    = Ret (r, w') ∧
    world_ok Demo.loaded w' ∧
    rand_pos w' = 0%nat ∧ drop_pos w' = 4%nat.
Proof.
  destruct (train_keeps_the_shapes (T := Demo.torch) Demo.loaded demo_torch_ok
              (Demo.world0 Demo.rnn_a_then_eos (fun _ => 0%nat) Demo.keep_all)
              Demo.adam_category Demo.adam_input Demo.adam_target
              (demo_world_ok _ _ _) demo_adam_example_ok)
    as (r & w' & Hrun & Hok & _ & _ & _ & _ & Hpos & _ & Hdrop).
  - vm_compute. lia.
  - exists r, w'. split; [exact Hrun|]. split; [exact Hok|]. split; [exact Hpos|].
    exact Hdrop.
Defined.

Lemma all_losses_one_entry_per_plot_every_witness :
  ∃ losses w',
    training_loop (T := Demo.torch) Demo.loaded 1200
      (Demo.world0 Demo.rnn_a_then_eos (fun k => k) Demo.keep_all)
    = Ret (losses, w') ∧
    length losses = (1200 / plot_every)%nat.
Proof.
  apply (all_losses_one_entry_per_plot_every (T := Demo.torch) Demo.loaded
           demo_torch_ok 1200
           (Demo.world0 Demo.rnn_a_then_eos (fun k => k) Demo.keep_all)).
  - exact EpochFacts.demo_dataset_ok.
  - apply demo_world_ok.
Defined.

Lemma sample_run_tops {T : Torch} (g : globals) (w : world) (category : str)
    (li : nat) (start_letter : N) :
  RNN_ok (n_categories g) n_letters (hidden_size (rnn w)) n_letters (rnn w) →
  Py.index (all_categories g) category = Ret li →
  (li < n_categories g)%nat →
  ∃ tops,
    top_indices (rnn w) (drop_tape w) [one_hot (n_categories g) li] (drop_pos w)
                max_length (enc start_letter)
                (zeros2 1 (hidden_size (rnn w))) = Ret tops ∧
    sample g category [start_letter] w
    = Ret (start_letter :: letters_of tops, after_forward (length tops) w).
Proof.
  intros Hr Hli Hlt.
  pose proof (categoryTensor_eq g category li Hli Hlt) as Hct.
  destruct (sample_loop_run g (one_hot (n_categories g) li) (range 0 max_length)
              (one_hot_length _ _) w (one_hot n_letters (letter_slot start_letter))
              (zeros1 (hidden_size (rnn w))) [start_letter] Hr
              (one_hot_length _ _) (length_zeros1 _))
    as (tops & Htops & Hrun & _).
  assert (Hfuel : length (range 0 max_length) = max_length).
  { unfold range. rewrite length_seq. lia. }
  rewrite Hfuel in Htops. exists tops. split; [exact Htops|].
  unfold sample.
  rewrite (M_bind_run _ _ _ _ _ (lift_run _ _ w Hct)). cbv beta.
  rewrite (M_bind_run _ _ _ _ _ (lift_run _ _ w (inputTensor_eq [start_letter]))).
  cbv beta.
  assert (H0 : initHidden w = Ret (zeros2 1 (hidden_size (rnn w)), w)) by done.
  mstep H0. exact Hrun.
Qed.



(** The sampled name depends on the draw of the dropout layer.  With the
    same weights, category and start letter, and whatever the tensor
    library and the state of [random], the draw that keeps every entry
    gives the start letter followed by [max_length] letters, and the draw
    that drops the first entry of the first output gives the start letter
    alone. *)
Theorem sample_depends_on_the_dropout_draw (T : Torch) (rand : nat → nat) :
  fst <$> sample (T := T) Demo.loaded (lit "Irish") (lit "A")
            (Demo.world0 Demo.rnn_a_then_eos rand Demo.keep_all)
  = Ret (lit "Aaaaaaaaaaaaaaaaaaaaa") ∧
  fst <$> sample (T := T) Demo.loaded (lit "Irish") (lit "A")
            (Demo.world0 Demo.rnn_a_then_eos rand Demo.drop_first)
  = Ret (lit "A").
Proof.
  assert (Hli : Py.index (all_categories Demo.loaded) (lit "Irish") = Ret 0%nat)
    by (vm_compute; reflexivity).
  assert (Hlt : (0 < n_categories Demo.loaded)%nat) by (vm_compute; lia).
  split.
  - destruct (sample_run_tops (T := T) Demo.loaded
                (Demo.world0 Demo.rnn_a_then_eos rand Demo.keep_all)
                (lit "Irish") 0 65%N (RNN_init_ok _ _ _ _ _) Hli Hlt)
      as (tops & Htops & Hrun).
    change (lit "A") with [65%N]. rewrite Hrun.
    rewrite (top_indices_normaliser T Demo.torch) in Htops.
    cbn [Demo.world0 rnn drop_tape drop_pos] in Htops.
    vm_compute in Htops. injection Htops as <-.
    cbn [fmap res_fmap fst]. f_equal.
  - destruct (sample_run_tops (T := T) Demo.loaded
                (Demo.world0 Demo.rnn_a_then_eos rand Demo.drop_first)
                (lit "Irish") 0 65%N (RNN_init_ok _ _ _ _ _) Hli Hlt)
      as (tops & Htops & Hrun).
    change (lit "A") with [65%N]. rewrite Hrun.
    rewrite (top_indices_normaliser T Demo.torch) in Htops.
    cbn [Demo.world0 rnn drop_tape drop_pos] in Htops.
    vm_compute in Htops. injection Htops as <-.
    cbn [fmap res_fmap fst]. f_equal.
Qed.

End RunFacts.
